(** * ddp-dump: a shallow embedding of [index.js]

    The command line tool connects to a Meteor server over DDP, subscribes
    to collections, waits until the message stream has been quiet for
    [timeout] milliseconds and dumps the collected documents as JSON.

    The embedding follows the script function by function.  Console
    output, subscriptions, timers, file writes and the closing of the
    connection are recorded as a trace of [Effect]s; the callbacks that
    Node runs later (timer ticks, completed subscriptions, completed file
    writes) are functions that the environment calls with the data of the
    event.  JavaScript objects used as maps are [gmap]s with string keys;
    keys inherited from [Object.prototype] are outside the model. *)

From Stdlib Require Import Ascii.
From stdpp Require Import gmap strings list fin_maps pretty.

Local Open Scope string_scope.
Local Open Scope Z_scope.
Local Open Scope list_scope.

(** ** JavaScript strings and arrays *)

(** [String.prototype.indexOf]: position of the first occurrence of
    [needle] in [hay], counted from [i]; [-1] when there is none. *)
Fixpoint indexOfFrom (needle hay : string) (i : Z) : Z :=
  if String.prefix needle hay then i
  else match hay with
       | EmptyString => -1
       | String _ rest => indexOfFrom needle rest (i + 1)
       end.

Definition indexOf (hay needle : string) : Z := indexOfFrom needle hay 0.

(** [Array.prototype.indexOf] on an array of strings. *)
Fixpoint arrayIndexOfFrom (x : string) (l : list string) (i : Z) : Z :=
  match l with
  | [] => -1
  | y :: l' => if String.eqb y x then i else arrayIndexOfFrom x l' (i + 1)
  end.

Definition arrayIndexOf (l : list string) (x : string) : Z :=
  arrayIndexOfFrom x l 0.

(** [Array.prototype.reduce] with the index passed to the callback. *)
Fixpoint reduceFrom {A B : Type} (f : B → A → nat → B) (acc : B) (i : nat)
    (l : list A) : B :=
  match l with
  | [] => acc
  | x :: l' => reduceFrom f (f acc x i) (S i) l'
  end.

Definition reduce {A B : Type} (f : B → A → nat → B) (acc : B) (l : list A) : B :=
  reduceFrom f acc 0%nat l.

Definition nl : string := String "010"%char EmptyString.

(** The double quote character, as a string. *)
Definition dq : string := String "034"%char EmptyString.

(** ** JavaScript objects *)

(** The property names that every object inherits from
    [Object.prototype].  On an object written [{}] that has no property
    of its own under such a name, reading the name gives the inherited
    value, which is neither [undefined] nor an array. *)
Definition Object_prototype_keys : list string :=
  ["constructor"; "__defineGetter__"; "__defineSetter__"; "hasOwnProperty";
   "__lookupGetter__"; "__lookupSetter__"; "isPrototypeOf";
   "propertyIsEnumerable"; "toString"; "valueOf"; "__proto__";
   "toLocaleString"].

(** ** Options *)

(** The value of [options.port]: a number from [nopt], a string from
    [url.parse], or absent. *)
Inductive PortValue :=
| PortUnset
| PortNumber (n : Z)
| PortString (s : string).

(** A JavaScript [Error]; only its [message] is read. *)
Record JsError := { message : string }.

Definition port_truthy (p : PortValue) : bool :=
  match p with
  | PortUnset => false
  | PortNumber n => negb (n =? 0)
  | PortString s => negb (String.eqb s "")
  end.

Definition string_truthy (s : option string) : bool :=
  match s with
  | Some s => negb (String.eqb s "")
  | None => false
  end.

(** The [options] object: the flags as [nopt] parsed them, the remaining
    arguments, and the fields the script adds.  Boolean flags that are
    absent read as [false]; [timeout] and the clock readings are whole
    milliseconds. *)
Record Options := {
  url : option string;
  host : option string;
  port : PortValue;
  ssl : bool;
  output : option (list string);
  all : bool;
  timeout : option Z;
  compress : bool;
  ddpv : option string;
  sockjs : bool;
  verbose : bool;
  debug : bool;
  version : bool;
  help : bool;
  argv_remain : list string;
  colls : list string;
  files : list string;
  saveToFile : bool;
  mergeCollections : bool;
  lastMessageDate : Z
}.

(** Assignments to single fields of [options]. *)
Definition set_host (v : option string) (o : Options) : Options :=
  let '(Build_Options a _ c d e f g h i j k l m n p q r s t u) := o in
  Build_Options a v c d e f g h i j k l m n p q r s t u.

Definition set_port (v : PortValue) (o : Options) : Options :=
  let '(Build_Options a b _ d e f g h i j k l m n p q r s t u) := o in
  Build_Options a b v d e f g h i j k l m n p q r s t u.

Definition set_ssl (v : bool) (o : Options) : Options :=
  let '(Build_Options a b c _ e f g h i j k l m n p q r s t u) := o in
  Build_Options a b c v e f g h i j k l m n p q r s t u.

Definition set_timeout (v : option Z) (o : Options) : Options :=
  let '(Build_Options a b c d e f _ h i j k l m n p q r s t u) := o in
  Build_Options a b c d e f v h i j k l m n p q r s t u.

Definition set_ddpv (v : option string) (o : Options) : Options :=
  let '(Build_Options a b c d e f g h _ j k l m n p q r s t u) := o in
  Build_Options a b c d e f g h v j k l m n p q r s t u.

Definition set_colls (v : list string) (o : Options) : Options :=
  let '(Build_Options a b c d e f g h i j k l m n p _ r s t u) := o in
  Build_Options a b c d e f g h i j k l m n p v r s t u.

Definition set_files (v : list string) (o : Options) : Options :=
  let '(Build_Options a b c d e f g h i j k l m n p q _ s t u) := o in
  Build_Options a b c d e f g h i j k l m n p q v s t u.

Definition set_saveToFile (v : bool) (o : Options) : Options :=
  let '(Build_Options a b c d e f g h i j k l m n p q r _ t u) := o in
  Build_Options a b c d e f g h i j k l m n p q r v t u.

Definition set_mergeCollections (v : bool) (o : Options) : Options :=
  let '(Build_Options a b c d e f g h i j k l m n p q r s _ u) := o in
  Build_Options a b c d e f g h i j k l m n p q r s v u.

Definition set_lastMessageDate (v : Z) (o : Options) : Options :=
  let '(Build_Options a b c d e f g h i j k l m n p q r s t _) := o in
  Build_Options a b c d e f g h i j k l m n p q r s t v.

Definition defaultTimeout : Z := 800.

(** ** Effects *)

(** What the script does to the outside world, in the order it does it. *)
Inductive Effect :=
| ConsoleLog (text : string)
| ConsoleError (text : string)
| ProcessExit (code : Z)
| DdpConnect
| DdpSubscribe (name : string)
| SetTimeout (delay : option Z)
| FsWriteFile (path : string) (content : string)
| DdpClose
| Uncaught (exception : string).

(** The number of timers that a trace sets. *)
Fixpoint timersSet (t : list Effect) : nat :=
  match t with
  | [] => 0
  | SetTimeout _ :: rest => S (timersSet rest)
  | _ :: rest => timersSet rest
  end.

(** The names that a trace subscribes to, in the order of the calls. *)
Fixpoint subscriptionsOf (t : list Effect) : list string :=
  match t with
  | [] => []
  | DdpSubscribe name :: rest => name :: subscriptionsOf rest
  | _ :: rest => subscriptionsOf rest
  end.

(** A function that may end the process: [Exits] carries the trace up to
    and including [process.exit], [Returns] the trace and the value. *)
Inductive Outcome (A : Type) :=
| Exits (trace : list Effect)
| Returns (trace : list Effect) (a : A).
Arguments Exits {A} trace.
Arguments Returns {A} trace a.

(** ** Calls of [async.map] *)

(** What one call of an iterator did: it threw after [trace], or it
    returned after [trace], having already called its callback with
    [sync] or leaving the call to a later event. *)
Inductive Called (R : Type) :=
| Threw (trace : list Effect)
| Went (trace : list Effect) (sync : option (option JsError * R)).
Arguments Threw {R} trace.
Arguments Went {R} trace sync.

(** The state of one [async.map] call: the results received so far, the
    number of iterator callbacks still outstanding, and whether the final
    callback is still due. *)
Record AsyncMap (R : Type) := {
  results : list (option R);
  outstanding : nat;
  due : bool
}.
Arguments results {R} _.
Arguments outstanding {R} _.
Arguments due {R} _.

(** ** The parts of the Node runtime that the script calls *)

(** The result of [url.parse], restricted to the three fields read. *)
Record Url := {
  protocol : option string;
  u_port : option string;
  hostname : option string
}.

(** Library functions whose value the script only passes on.  [Doc] is a
    document of a collection; [number_text s] is [String(Number(s))] and
    [json_text s] is [JSON.stringify(s)], the conversions behind the
    [%d] and [%j] directives of [util.format]; [JSON_stringify v indent]
    is [JSON.stringify(v, null, indent)] on the dumped object. *)
Class Runtime := {
  Doc : Type;
  url_parse : string → Url;
  url_format : string → PortValue → option string → string;
  number_text : string → string;
  json_text : string → string;
  inspect_error : JsError → string;
  JSON_stringify : gmap string (gmap string Doc) → option Z → string;
  package_version : string
}.

Section Program.
Context `{Runtime}.

(** Modelled from the spec: [util.format] belongs to Node and is not in
    the repository; the spec calls it standard formatting semantics.  The
    model follows the documentation of Node for string arguments: the
    format is scanned for [%s], [%d], [%j] and [%%]; [%%] becomes [%]; a
    directive consumes the next argument while there is one and stays
    as written afterwards; any other [%] is literal text; the arguments
    left over are appended, each after a space. *)
Fixpoint format_go (f : string) (args : list string) : string * list string :=
  match f with
  | EmptyString => (EmptyString, args)
  | String c f' =>
      let literal := let '(r, a) := format_go f' args in (String c r, a) in
      if Ascii.eqb c "%" then
        match f' with
        | EmptyString => literal
        | String d rest =>
            if Ascii.eqb d "%" then
              let '(r, a) := format_go rest args in (String "%" r, a)
            else if Ascii.eqb d "s" || Ascii.eqb d "d" || Ascii.eqb d "j" then
              match args with
              | [] => literal
              | x :: args' =>
                  let v := if Ascii.eqb d "s" then x
                           else if Ascii.eqb d "d" then number_text x
                           else json_text x in
                  let '(r, a) := format_go rest args' in (v +:+ r, a)
              end
            else literal
        end
      else literal
  end.

Definition util_format (f : string) (args : list string) : string :=
  let '(s, rest) := format_go f args in
  s +:+ String.concat "" ((λ x, " " +:+ x) <$> rest).

(** [log = console.log] and [error = console.error]; both format their
    arguments with [util.format]. *)
Definition log (fmt : string) (args : list string) : list Effect :=
  [ConsoleLog (util_format fmt args)].

Definition error (fmt : string) (args : list string) : list Effect :=
  [ConsoleError (util_format fmt args)].

(** [info] formats and logs; the main script replaces it by an empty
    function when [options.verbose] is not set. *)
Definition info (o : Options) (fmt : string) (args : list string) : list Effect :=
  if verbose o then log (util_format fmt args) [] else [].

Definition usage : list Effect :=
  log "Usage: ddp-dump [options] [collection(s) to subscribe ...]" [].

(** The lines that [printOptions] logs. *)
Definition printOptions_lines : list string :=
  [ nl +:+ "Dumps Meteor collections by using Meteor's DDP ("
       +:+ "Distributed Data Protocol).";
    nl +:+ "Options:";
    "  -u, --url       Websocket endpoint URL";
    "  -h, --host      Hostname - default: localhost";
    "  -p, --port      Port - default: 80 or 433 if SSL is true";
    "  -s, --ssl       SSL - default: false";
    "  -a, --all       Include all collections that are received";
    "  -o, --output    Output JSON file(s), otherwise will dump to stdout";
    "                  Note: %s will be replaced by the collection name";
    "                  and multiple collections will be merged to one";
    "                  big JSON structure when only one file is given";
    "  -t, --timeout   How long to wait for data after the last";
    "                  message (in ms) - default: " +:+ pretty defaultTimeout;
    "                  if -all is set, otherwise 0";
    "  -c, --compress  Compress JSON - default: false";
    "  -d, --ddpv      DDP Protocol Version (1, pre2, pre1) - default: 1";
    "  -k, --sockjs    Use the SockJs protocol - default: false";
    "  -?, --help      Display a help message and exit.";
    "  -v, --verbose   Verbose mode.";
    "      --debug     Debug mode.";
    "  -V, --version   Display version information and exit.";
    nl +:+ "Examples:";
    "  Dump all collections of the local Meteor WebSocket server:";
    "    ddp-dump --all";
    "    ddp-dump --all > all_collections.json";
    "    ddp-dump --all -o col_%s.json";
    "";
    "  Dump a specific collection:";
    "    ddp-dump cats > cats.json";
    "    ddp-dump -h localhost -p 80 cats > cats.json";
    "    ddp-dump -u ws://local cats --all -o cats_and_others.json";
    "    ddp-dump -h example.org --ssl dogs > dogs.json";
    "    ddp-dump -u wss://example.org lizards -o %s.json";
    "";
    "  Merge multiple collections to one JSON:";
    "    ddp-dump -h meteor.local cats dogs lizards > cute_animals.json";
    "    ddp-dump -h meteor.local cats dogs lizards -o cute_animals.json";
    "";
    "  Save collections to separate JSON files:";
    "    ddp-dump -h meteor.local -o cats.json -o birds.json cats birds";
    "    ddp-dump -h meteor.local -o %s.json cats birds" ].

Definition printOptions : list Effect :=
  flat_map (λ line, log line []) printOptions_lines.

(** String(v) for a value that may be [null]. *)
Definition String_of (v : option string) : string := default "null" v.

(** ** Command line options *)

(** Apply data from a websocket URL. *)
Definition applyUrl (o : Options) : Outcome Options :=
  if string_truthy (url o) then
    let u := url_parse (default "" (url o)) in
    if negb (bool_decide (protocol u = Some "wss:"))
       && negb (bool_decide (protocol u = Some "ws:")) then
      Exits (error ("Error: Unknown protocol " +:+ dq +:+ "%s" +:+ dq)
               [String_of (protocol u)]
             ++ [ProcessExit 1])
    else
      Returns []
        (set_host (hostname u)
           (set_port (from_option PortString PortUnset (u_port u))
              (set_ssl (bool_decide (protocol u = Some "wss:")) o)))
  else Returns [] o.

(** Set defaults. *)
Definition setDefaults (o : Options) : Options :=
  let o := set_host (if string_truthy (host o) then host o
                     else Some "localhost") o in
  let o := if negb (port_truthy (port o))
           then set_port (PortNumber (if ssl o then 443 else 80)) o else o in
  let o := if negb (from_option (λ t, negb (t =? 0)) false (timeout o))
           then set_timeout (Some (if all o then defaultTimeout else 0)) o
           else o in
  set_ddpv (if string_truthy (ddpv o) then ddpv o else Some "1") o.

(** Process output file settings. *)
Definition processOutput (o : Options) : Outcome Options :=
  let o := set_files (default [] (output o)) o in
  let o := set_saveToFile (0 <? length (files o))%nat o in
  let o := set_mergeCollections true o in
  if saveToFile o then
    if negb (indexOf (default "" (files o !! 0%nat)) "%s" =? -1) then
      (* Handle '%s' output options *)
      let o := set_mergeCollections false o in
      if (1 <? length (files o))%nat then
        Exits (error ("Error: Only one output option is supported when using "
                      +:+ dq +:+ "%s" +:+ dq +:+ ".") []
               ++ [ProcessExit 1])
      else
        (* Fill files array with '%s' entry if collections are given *)
        Returns []
          (if (0 <? length (colls o))%nat
           then set_files ((λ _, default "" (files o !! 0%nat)) <$> colls o) o
           else o)
    else if (length (files o) =? length (colls o))%nat then
      (* Write every collection to the matching file *)
      Returns [] (set_mergeCollections false o)
    else if (1 <? length (files o))%nat then
      Exits (error "Error: More output files then collections given." []
             ++ [ProcessExit 1])
    else (* only one filepath without %s given *) Returns [] o
  else Returns [] o.

Definition processCliOptions (o : Options) : Outcome Options :=
  match applyUrl o with
  | Exits t => Exits t
  | Returns _ o => processOutput (setDefaults o)
  end.

(** ** I/O functions *)

(** The live collections of the DDP client: name to (id to document). *)
Definition stringify (v : gmap string (gmap string Doc)) (compress : bool) : string :=
  if compress then JSON_stringify v None else JSON_stringify v (Some 2).

Definition writeLog (path : string) (data : gmap string (gmap string Doc))
    (compress : bool) : list Effect :=
  log (stringify data compress) [].

Definition writeJSON (o : Options) (path : string)
    (data : gmap string (gmap string Doc)) (compress : bool) : list Effect :=
  info o ("Writing data to file " +:+ dq +:+ "%s" +:+ dq) [path]
  ++ [FsWriteFile path (stringify data compress)].

Definition formatPath (filename : option string) (name : string) : string :=
  let filename :=
    match filename with
    | None => "%s.json"
    | Some f => if String.eqb f "" then "%s.json" else f
    end in
  if negb (indexOf filename "%" =? -1)
  then util_format filename [name]
  else filename.

(** [None] is [null], the console. *)
Definition generateFilename (o : Options) (collName : string) (i : nat)
    : option string :=
  if saveToFile o then
    Some (formatPath
            (if mergeCollections o then files o !! 0%nat else files o !! i)
            collName)
  else None.

(** ** Main functions *)

(** The key is [String(path)]: the console path [null] is the key
    ["null"].  This is the source function on every key that is in the
    mapping or is not in [Object_prototype_keys]; on a key of
    [Object_prototype_keys] that is not in the mapping, [mapping[path]]
    is the inherited value, no list is created and [push] throws a
    [TypeError], which this function does not show. *)
Definition addPathToMapping (mapping : gmap string (list string))
    (path : option string) (collName : string) : gmap string (list string) :=
  let key := String_of path in
  <[key := default [] (mapping !! key) ++ [collName]]> mapping.

(** [Object.keys]; the order of enumeration is the map's, not the order
    of insertion. *)
Definition Object_keys {V : Type} (m : gmap string V) : list string :=
  (map_to_list m).*1.

(** The script's state after start-up: [options] and the mapping from
    output path to collection names. *)
Record Session := {
  options : Options;
  pathToCollectionMapping : gmap string (list string)
}.

(** The value [subscribeToCollection] passes on for one subscription. *)
Record SubResult := { name : string; err : option JsError }.

Definition subscribeToCollection (o : Options) (name : string) : list Effect :=
  info o "Subscribing to collection: %s" [name] ++ [DdpSubscribe name].

(** The callback given to [ddp.subscribe]: the error argument handed to
    [async.map] is always [null], the error of the subscription travels
    in the result. *)
Definition subscribeCallback (name : string) (err : option JsError)
    : option JsError * SubResult :=
  (None, {| name := name; err := err |}).

Definition waitForTimeout (o : Options) : list Effect :=
  [SetTimeout (timeout o)].

(** The comparison made when the timer fires at time [now]. *)
Definition timeoutExceeded (o : Options) (now : Z) : bool :=
  from_option (λ t, t <? now - lastMessageDate o) false (timeout o).

Definition rowCount (collections : gmap string (gmap string Doc))
    (name : string) : string :=
  pretty (size (default ∅ (collections !! name))).

Definition processSubscribtionResults (o : Options)
    (collections : gmap string (gmap string Doc)) (results : list SubResult)
    : list Effect :=
  flat_map (λ r,
      match err r with
      | Some e =>
          error ("Error: Could not subscribe to collection " +:+ dq +:+ "%s"
                 +:+ dq +:+ ":" +:+ nl +:+ "%s") [name r; message e]
      | None =>
          info o ("Subscription of " +:+ dq +:+ "%s" +:+ dq
                  +:+ " was successful (%s rows)")
            [name r; rowCount collections (name r)]
      end) results
  ++ waitForTimeout o.

Definition finish (err : option JsError) : list Effect :=
  match err with
  | Some e => log "An error occured during saving of files:" []
              ++ [ConsoleLog (inspect_error e)]
  | None => []
  end ++ [DdpClose].

(** The reduction in [writeData]: collections that the server never
    sent are left out. *)
Definition gather (collections : gmap string (gmap string Doc))
    (cols : list string) : gmap string (gmap string Doc) :=
  foldl (λ data col,
           match collections !! col with
           | None => data
           | Some c => <[col := c]> data
           end) ∅ cols.

(** ** The async library *)

Section Async.
Context {R : Type} (final : option JsError → list R → list Effect).

(** Modelled from the spec: [async.map] belongs to the async library, a
    dependency that is not in the repository, and the spec only says
    that the calls are fired together and joined.  The model follows
    the documentation of the library: the iterator is called on every
    item in turn; the final callback is called once, with the error as
    soon as an iterator callback passes one, or with all results when the
    last iterator callback has come without an error.  [asyncMap_done] is
    the callback given to the iterator of item [i]. *)
Definition asyncMap_done (am : AsyncMap R) (i : nat) (err : option JsError)
    (v : R) : AsyncMap R * list Effect :=
  let rs := <[i := Some v]> (results am) in
  let n := pred (outstanding am) in
  match err with
  | Some e =>
      ({| results := rs; outstanding := n; due := false |},
       if due am then final (Some e) (omap id rs) else [])
  | None =>
      if (n =? 0)%nat then
        ({| results := rs; outstanding := n; due := false |},
         if due am then final None (omap id rs) else [])
      else ({| results := rs; outstanding := n; due := due am |}, [])
  end.

Fixpoint asyncMap_each (iterator : string → Called R) (am : AsyncMap R)
    (i : nat) (items : list string) : AsyncMap R * list Effect :=
  match items with
  | [] => (am, [])
  | x :: items' =>
      match iterator x with
      | Threw t => (am, t ++ [Uncaught "TypeError"])
      | Went t sync =>
          let '(am1, t1) :=
            match sync with
            | Some (err, v) => asyncMap_done am i err v
            | None => (am, [])
            end in
          let '(am2, t2) := asyncMap_each iterator am1 (S i) items' in
          (am2, t ++ t1 ++ t2)
      end
  end.

Definition asyncMap (items : list string) (iterator : string → Called R)
    : AsyncMap R * list Effect :=
  match items with
  | [] => ({| results := []; outstanding := 0; due := false |}, final None [])
  | _ =>
      asyncMap_each iterator
        {| results := replicate (length items) None;
           outstanding := length items; due := true |} 0%nat items
  end.

(** The calls of [asyncMap_done] that come after [asyncMap] has
    returned, in the order in which they come: each with the index of
    its item, the error and the result. *)
Fixpoint asyncMap_run (am : AsyncMap R)
    (events : list (nat * option JsError * R)) : AsyncMap R * list Effect :=
  match events with
  | [] => (am, [])
  | (i, err, v) :: rest =>
      let '(am1, t1) := asyncMap_done am i err v in
      let '(am2, t2) := asyncMap_run am1 rest in
      (am2, t1 ++ t2)
  end.

End Async.

(** ** Export *)

(** [writeData] hands the buffer to the writer: [writeLog] calls the
    callback at once, [writeJSON] leaves it to [fs.writeFile].  Reading a
    path that is not in the mapping throws. *)
Definition writeData (s : Session) (collections : gmap string (gmap string Doc))
    (path : string) : Called () :=
  match pathToCollectionMapping s !! path with
  | None => Threw []
  | Some cols =>
      let buffer := gather collections cols in
      if saveToFile (options s)
      then Went (writeJSON (options s) path buffer (compress (options s))) None
      else Went (writeLog path buffer (compress (options s))) (Some (None, ()))
  end.

(** The body of the loop over [Object.keys(ddp.collections)]. *)
Definition discover (collections : gmap string (gmap string Doc))
    (acc : Session * list Effect) (collName : string) : Session * list Effect :=
  let '(s, t) := acc in
  let o := options s in
  if arrayIndexOf (colls o) collName =? -1 then
    let path := generateFilename o collName 0 in
    ({| options := set_colls (colls o ++ [collName]) o;
        pathToCollectionMapping :=
          addPathToMapping (pathToCollectionMapping s) path collName |},
     t ++ info o ("Received unknown collection " +:+ dq +:+ "%s" +:+ dq
                  +:+ " (%s rows)") [collName; rowCount collections collName])
  else acc.

Definition discoverAll (s : Session) (collections : gmap string (gmap string Doc))
    : Session * list Effect :=
  if all (options s) && (0 <? length (Object_keys collections))%nat
  then foldl (discover collections) (s, []) (Object_keys collections)
  else (s, []).

Definition receivedLastDDPMessage (s : Session)
    (collections : gmap string (gmap string Doc))
    : Session * AsyncMap () * list Effect :=
  let '(s, t) := discoverAll s collections in
  let filepaths := Object_keys (pathToCollectionMapping s) in
  let t0 := if (length filepaths =? 0)%nat
            then info (options s) "No collections received" [] else [] in
  let '(am, tw) := asyncMap (λ err _, finish err) filepaths (writeData s collections) in
  (s, am, t ++ t0 ++ tw).

(** The callback of [fs.writeFile] for the [i]-th path. *)
Definition writeCompleted (am : AsyncMap ()) (i : nat) (err : option JsError)
    : AsyncMap () * list Effect :=
  asyncMap_done (λ err _, finish err) am i err ().

(** The callbacks of [fs.writeFile] in the order in which the writes
    end, each with the index of its path. *)
Fixpoint writesCompleted (am : AsyncMap ()) (events : list (nat * option JsError))
    : AsyncMap () * list Effect :=
  match events with
  | [] => (am, [])
  | (i, err) :: rest =>
      let '(am1, t1) := writeCompleted am i err in
      let '(am2, t2) := writesCompleted am1 rest in
      (am2, t1 ++ t2)
  end.

(** ** Events of the connection *)

(** The callback of [ddp.subscribe] for the [i]-th collection, run when
    the server has answered. *)
Definition subscriptionCompleted (o : Options)
    (collections : gmap string (gmap string Doc)) (am : AsyncMap SubResult)
    (i : nat) (collName : string) (e : option JsError)
    : AsyncMap SubResult * list Effect :=
  let '(aerr, r) := subscribeCallback collName e in
  asyncMap_done (λ _ results, processSubscribtionResults o collections results)
    am i aerr r.

(** The answers of the server to the subscriptions, in the order in
    which they come: each with the index and the name of its collection
    and the error, if any. *)
Fixpoint subscriptionsCompleted (o : Options)
    (collections : gmap string (gmap string Doc)) (am : AsyncMap SubResult)
    (events : list (nat * string * option JsError))
    : AsyncMap SubResult * list Effect :=
  match events with
  | [] => (am, [])
  | (i, collName, e) :: rest =>
      let '(am1, t1) := subscriptionCompleted o collections am i collName e in
      let '(am2, t2) := subscriptionsCompleted o collections am1 rest in
      (am2, t1 ++ t2)
  end.

(** The callback of [ddp.connect]. *)
Definition connectCallback (o : Options)
    (collections : gmap string (gmap string Doc)) (ddpErr : option JsError)
    : AsyncMap SubResult * list Effect :=
  match ddpErr with
  | Some _ =>
      ({| results := []; outstanding := 0; due := false |},
       info o "Error: DDP connection failed" [])
  | None =>
      let t := info o "DDP connection was successful" [] in
      if (length (colls o) =? 0)%nat then
        ({| results := []; outstanding := 0; due := false |},
         t ++ waitForTimeout o)
      else
        (* Subscribe to all collections given by the user *)
        let '(am, ts) :=
          asyncMap (λ _ results, processSubscribtionResults o collections results)
            (colls o) (λ collName, Went (subscribeToCollection o collName) None) in
        (am, t ++ ts)
  end.

(** The handler of the [message] event. *)
Definition onMessage (o : Options) (now : Z) (msg : string)
    : Options * list Effect :=
  (set_lastMessageDate now o,
   if debug o then log "Received DDP message: " [msg] else []).

(** The function given to [setTimeout] in [waitForTimeout], run at time
    [now]; [Some] is the call of [receivedLastDDPMessage]. *)
Definition timerCallback (s : Session)
    (collections : gmap string (gmap string Doc)) (now : Z)
    : Session * option (AsyncMap ()) * list Effect :=
  if timeoutExceeded (options s) now then
    let '(s, am, t) := receivedLastDDPMessage s collections in (s, Some am, t)
  else (s, None, waitForTimeout (options s)).

Definition onSocketClose (o : Options) (code message : string) : list Effect :=
  if verbose o then log "Connection closed: %s %s" [code; message] else [].


(** ** The completion detector *)

(** What reaches the detector between the first [waitForTimeout] and the
    export: messages from the server and ticks of the timer, each with
    the clock reading at that moment. *)
Inductive Event :=
| Message (now : Z)
| Timer (now : Z).

(** The event loop of Node between the first [waitForTimeout] and the
    end of the script.  [timers] is the number of timers that have been
    set and have not run yet.  A message runs the handler of the
    [message] event; a tick of a pending timer uses that timer up and
    runs the function given to [setTimeout]; the trace of each handler
    says how many timers it has set.  The result lists the clock readings
    at which the timer function called [receivedLastDDPMessage]. *)
Fixpoint eventLoop (collections : gmap string (gmap string Doc)) (s : Session)
    (timers : nat) (events : list Event) : list Z :=
  match events with
  | [] => []
  | Message now :: rest =>
      let '(o, t) := onMessage (options s) now "" in
      eventLoop collections
        {| options := o; pathToCollectionMapping := pathToCollectionMapping s |}
        (timers + timersSet t) rest
  | Timer now :: rest =>
      match timers with
      | O => eventLoop collections s O rest
      | S pending =>
          let '(s', export, t) := timerCallback s collections now in
          match export with Some _ => [now] | None => [] end
          ++ eventLoop collections s' (pending + timersSet t) rest
      end
  end.

(** The decisions of the event loop alone, without the sessions and the
    traces: [armed] says that a timer set by [waitForTimeout] is pending;
    the result lists the clock readings at which the export starts. *)
Fixpoint detector (o : Options) (armed : bool) (events : list Event) : list Z :=
  match events with
  | [] => []
  | Message now :: rest => detector (fst (onMessage o now "")) armed rest
  | Timer now :: rest =>
      if armed then
        if timeoutExceeded o now
        then now :: detector o false rest
        else detector o true rest
      else detector o armed rest
  end.

(** [options] after the messages among [events] have been handled. *)
Fixpoint afterMessages (o : Options) (events : list Event) : Options :=
  match events with
  | [] => o
  | Message now :: rest => afterMessages (fst (onMessage o now "")) rest
  | Timer _ :: rest => afterMessages o rest
  end.

(** ** Main application logic *)

Definition printConnectionInfo (o : Options) : list Effect :=
  info o "Connecting to: %s (DDP Version %s)%s"
    [url_format (if ssl o then "wss:" else "ws:") (port o) (host o);
     String_of (ddpv o);
     if sockjs o then " (SockJS enabled)" else ""].

(** The mapping from output path to collections, built from
    [options.colls]. *)
Definition buildMapping (o : Options) : gmap string (list string) :=
  reduce (λ mapping collName i,
            addPathToMapping mapping (generateFilename o collName i) collName)
    ∅ (colls o).

(** The script from the parsed command line to [ddp.connect]; [now] is
    the clock reading taken for [options.lastMessageDate]. *)
Definition main (o : Options) (now : Z) : Outcome Session :=
  if version o then Exits (log package_version [] ++ [ProcessExit 0])
  else if help o then Exits (usage ++ printOptions ++ [ProcessExit 0])
  else
    let o := set_colls (argv_remain o) o in
    if (length (colls o) =? 0)%nat && negb (all o) then
      Exits (error "Error: Please specify at least one collection" []
             ++ error ("or use the --all option." +:+ nl) []
             ++ usage
             ++ log (nl +:+ "Try `ddp-dump --helpÂ´ for more information.") []
             ++ [ProcessExit 1])
    else
      match processCliOptions o with
      | Exits t => Exits t
      | Returns t o =>
          let mapping := buildMapping o in
          Returns (t ++ (if verbose o then printConnectionInfo o else [])
                     ++ [DdpConnect])
            {| options := set_lastMessageDate now o;
               pathToCollectionMapping := mapping |}
      end.

End Program.

(** A runtime for evaluating the script on concrete inputs: documents
    are strings, every URL parses as [ws://localhost], numbers that do
    not parse print as [NaN]. *)
Definition testRuntime : Runtime := {|
  Doc := string;
  url_parse := λ _, {| protocol := Some "ws:"; u_port := None;
                       hostname := Some "localhost" |};
  url_format := λ p _ h, p +:+ "//" +:+ default "" h;
  number_text := λ _, "NaN";
  json_text := λ s, dq +:+ s +:+ dq;
  inspect_error := λ e, "Error: " +:+ message e;
  JSON_stringify := λ v _, "{" +:+ String.concat "," (Object_keys v) +:+ "}";
  package_version := "1.0.0"
|}.

(** An [options] object with nothing set. *)
Definition noOptions : Options := {|
  url := None; host := None; port := PortUnset; ssl := false;
  output := None; all := false; timeout := None; compress := false;
  ddpv := None; sockjs := false; verbose := false; debug := false;
  version := false; help := false; argv_remain := []; colls := [];
  files := []; saveToFile := false; mergeCollections := false;
  lastMessageDate := 0
|}.

(** The [options] that [nopt] yields for
    [ddp-dump [-o path]... [--all] [--verbose] collection...]. *)
Definition cmdline (output : option (list string)) (remain : list string)
    (all verbose : bool) : Options := {|
  url := None; host := None; port := PortUnset; ssl := false;
  output := output; all := all; timeout := None; compress := false;
  ddpv := None; sockjs := false; verbose := verbose; debug := false;
  version := false; help := false; argv_remain := remain; colls := [];
  files := []; saveToFile := false; mergeCollections := false;
  lastMessageDate := 0
|}.

(** ** Measures on event sequences *)

Definition eventTime (e : Event) : Z :=
  match e with
  | Message now => now
  | Timer now => now
  end.

(** The events come in the order of their clock readings, none earlier
    than [t]. *)
Fixpoint chronologicalFrom (t : Z) (events : list Event) : bool :=
  match events with
  | [] => true
  | e :: rest => (t <=? eventTime e) && chronologicalFrom (eventTime e) rest
  end.

(** The clock readings of the messages among [events]. *)
Fixpoint messageTimes (events : list Event) : list Z :=
  match events with
  | [] => []
  | Message now :: rest => now :: messageTimes rest
  | Timer _ :: rest => messageTimes rest
  end.

(** ** Measures on mappings *)

Definition occurrences (c : string) (cols : list string) : nat :=
  length (filter (λ x, x = c) cols).

(** The number of entries for the collection [c] in a mapping, over all
    its paths. *)
Definition entriesOf (c : string) (m : gmap string (list string)) : nat :=
  map_fold (λ _ cols n, (occurrences c cols + n)%nat) 0%nat m.

(** The collections of [l], numbered from [i], that [g] sends to the
    key [k], in order. *)
Fixpoint assigned (g : string → nat → option string) (k : string) (i : nat)
    (l : list string) : list string :=
  match l with
  | [] => []
  | c :: l' =>
      (if decide (String_of (g c i) = k) then [c] else [])
      ++ assigned g k (S i) l'
  end.

(** ** Command lines used as examples *)

(** [ddp-dump -o col_%s.json cats dogs lizards], after
    [options.colls = options.argv.remain]. *)
Definition fanOutOptions : Options :=
  set_colls ["cats"; "dogs"; "lizards"]
    (cmdline (Some ["col_%s.json"]) ["cats"; "dogs"; "lizards"] false false).

(** [ddp-dump -o a.json -o a.json cats dogs], after
    [options.colls = options.argv.remain]. *)
Definition sharedPathOptions : Options :=
  set_colls ["cats"; "dogs"]
    (cmdline (Some ["a.json"; "a.json"]) ["cats"; "dogs"] false false).

(** The spec's idle scenario: a timeout of 150 ms, the last message so
    far at 0, messages at 100 and 200, checks every 150 ms. *)
Definition idleOptions : Options :=
  set_timeout (Some 150) (cmdline None ["cats"] false false).

Definition idleEvents : list Event :=
  [Message 100; Timer 150; Message 200; Timer 300; Timer 450].

(** [ddp-dump -t 150 cats] on the console, as the session stands when
    the wait starts. *)
Definition idleSession : Session := {|
  options := set_colls ["cats"] idleOptions;
  pathToCollectionMapping := {[ "null" := ["cats"] ]}
|}.

(** A session that writes [cats] and [ghosts] to [out.json] and [dogs]
    to [dogs.json], and a server that has sent [cats] and [dogs] only. *)
Definition exampleSession : Session := {|
  options :=
    set_saveToFile true
      (set_files ["out.json"; "out.json"; "dogs.json"]
         (set_colls ["cats"; "ghosts"; "dogs"]
            (cmdline (Some ["out.json"; "out.json"; "dogs.json"])
               ["cats"; "ghosts"; "dogs"] false false)));
  pathToCollectionMapping :=
    {[ "out.json" := ["cats"; "ghosts"]; "dogs.json" := ["dogs"] ]}
|}.

Definition exampleCollections : gmap string (gmap string string) :=
  {[ "cats" := {[ "c1" := "Tom" ]}; "dogs" := {[ "d1" := "Rex" ]} ]}.


(** [ddp-dump --verbose cats]. *)
Definition verboseOptions : Options :=
  set_colls ["cats"] (cmdline None ["cats"] false true).

(** The results of two subscriptions, the first of which failed. *)
Definition exampleResults : list SubResult :=
  [ {| name := "cats"; err := Some {| message := "403" |} |};
    {| name := "dogs"; err := None |} ].

(** The options that [processCliOptions] returns, or [o] itself when it
    exits. *)
Definition processed `{Runtime} (o : Options) : Options :=
  match processCliOptions o with
  | Returns _ o' => o'
  | Exits _ => o
  end.

(** The test runtime with a fixed result of [url.parse]. *)
Definition parsedAs (u : Url) : Runtime := {|
  Doc := string;
  url_parse := λ _, u;
  url_format := url_format (Runtime := testRuntime);
  number_text := number_text (Runtime := testRuntime);
  json_text := json_text (Runtime := testRuntime);
  inspect_error := inspect_error (Runtime := testRuntime);
  JSON_stringify := JSON_stringify (Runtime := testRuntime);
  package_version := package_version (Runtime := testRuntime)
|}.

(** [ddp-dump --url u --host h --port p collection...], after
    [options.colls = options.argv.remain]. *)
Definition urlOptions (u h : string) (p : Z) (remain : list string) : Options := {|
  url := Some u; host := Some h; port := PortNumber p; ssl := false;
  output := None; all := false; timeout := None; compress := false;
  ddpv := None; sockjs := false; verbose := false; debug := false;
  version := false; help := false; argv_remain := remain; colls := remain;
  files := []; saveToFile := false; mergeCollections := false;
  lastMessageDate := 0
|}.

(** Two results of [url.parse]. *)
Definition httpUrl : Url :=
  {| protocol := Some "http:"; u_port := None; hostname := Some "example.org" |}.

Definition wssUrl : Url :=
  {| protocol := Some "wss:"; u_port := None; hostname := Some "example.org" |}.

(** [ddp-dump --all cats] on the console, as the session stands when
    the export starts. *)
Definition captureSession : Session := {|
  options := set_colls ["cats"] (cmdline None ["cats"] true false);
  pathToCollectionMapping := {[ "null" := ["cats"] ]}
|}.

(** [ddp-dump --all] when nothing is mapped. *)
Definition emptySession : Session := {|
  options := cmdline None [] true false;
  pathToCollectionMapping := ∅
|}.

(** The session that [main] starts, if it starts one. *)
Definition started (r : Outcome Session) : Session :=
  match r with
  | Returns _ s => s
  | Exits _ => emptySession
  end.

Definition startedTrace (r : Outcome Session) : list Effect :=
  match r with
  | Returns t _ => t
  | Exits t => t
  end.

(** [ddp-dump cats], started at clock reading 5. *)
Definition exampleStart : Outcome Session :=
  main (H := testRuntime) (cmdline None ["cats"] false false) 5.

(** * Properties *)

Section Properties.
Context `{Runtime}.

(** ** Strings *)

Lemma append_cons (c : ascii) (s t : string) :
  String c s +:+ t = String c (s +:+ t).
Proof. reflexivity. Qed.

Lemma append_empty_l (s : string) : "" +:+ s = s.
Proof. reflexivity. Qed.

Lemma append_empty_r (s : string) : s +:+ "" = s.
Proof.
  induction s as [|c s IH]; [done |]. by rewrite append_cons, IH.
Qed.

Lemma append_assoc (s t u : string) : (s +:+ t) +:+ u = s +:+ t +:+ u.
Proof.
  induction s as [|c s IH]; [done |]. by rewrite !append_cons, IH.
Qed.

Lemma prefix_empty (s : string) : String.prefix "" s = true.
Proof. by destruct s. Qed.

Lemma indexOfFrom_lower (needle hay : string) (i : Z) :
  indexOfFrom needle hay i = -1 ∨ i ≤ indexOfFrom needle hay i.
Proof.
  revert i. induction hay as [|c hay IH]; intros i; cbn [indexOfFrom].
  - destruct (String.prefix needle ""); lia.
  - destruct (String.prefix needle (String c hay)); [lia |].
    destruct (IH (i + 1)); lia.
Qed.

(** A format without a percent sign is its own result. *)
Lemma format_go_plain (f : string) (args : list string) (i : Z) :
  0 ≤ i → indexOfFrom "%" f i = -1 → format_go f args = (f, args).
Proof.
  revert i. induction f as [|c f IH]; intros i Hi; [done |].
  cbn [indexOfFrom String.prefix format_go].
  destruct (ascii_dec "%" c) as [<-|Hc].
  - rewrite prefix_empty. lia.
  - intros Hidx. apply (IH (i + 1)) in Hidx; [| lia].
    rewrite Hidx.
    by assert (Ascii.eqb c "%" = false) as -> by (apply Ascii.eqb_neq; congruence).
Qed.

(** Text without a percent sign in front of a format is copied. *)
Lemma format_go_prefix (pre f : string) (args : list string) (i : Z) :
  0 ≤ i → indexOfFrom "%" pre i = -1 →
  format_go (pre +:+ f) args
  = let '(r, a) := format_go f args in (pre +:+ r, a).
Proof.
  revert i. induction pre as [|c pre IH]; intros i Hi.
  - intros _. rewrite append_empty_l. by destruct (format_go f args).
  - cbn [indexOfFrom String.prefix]. rewrite append_cons.
    destruct (ascii_dec "%" c) as [<-|Hc].
    + rewrite prefix_empty. lia.
    + intros Hidx. apply (IH (i + 1)) in Hidx; [| lia].
      cbn [format_go]. rewrite Hidx.
      assert (Ascii.eqb c "%" = false) as -> by (apply Ascii.eqb_neq; congruence).
      by destruct (format_go f args).
Qed.

Lemma indexOfFrom_found (pre rest : string) (i : Z) :
  0 ≤ i → indexOfFrom "%" (pre +:+ String "%" rest) i ≠ -1.
Proof.
  revert i. induction pre as [|c pre IH]; intros i Hi.
  - rewrite append_empty_l. cbn [indexOfFrom String.prefix].
    destruct (ascii_dec "%" "%"); [| done]. rewrite prefix_empty. lia.
  - rewrite append_cons. cbn [indexOfFrom String.prefix].
    destruct (ascii_dec "%" c); [rewrite prefix_empty; lia |].
    apply IH. lia.
Qed.

(** ** Path templating *)

Lemma formatPath_undefined (n : string) : formatPath None n = n +:+ ".json".
Proof.
  unfold formatPath, util_format. simpl. by rewrite append_empty_r.
Qed.

Lemma formatPath_empty (n : string) : formatPath (Some "") n = n +:+ ".json".
Proof.
  unfold formatPath, util_format. simpl. by rewrite append_empty_r.
Qed.

Lemma formatPath_no_percent (t n : string) :
  t ≠ "" → indexOf t "%" = -1 → formatPath (Some t) n = t.
Proof.
  intros Ht Hidx. unfold formatPath.
  apply String.eqb_neq in Ht. rewrite Ht. by rewrite Hidx.
Qed.

(** When the first percent sign of the template starts [%s], the name
    replaces that marker; the text behind it is formatted without
    arguments. *)
Lemma formatPath_marker_first (pre post n : string) :
  indexOf pre "%" = -1 →
  formatPath (Some (pre +:+ "%s" +:+ post)) n
  = pre +:+ n +:+ util_format post [].
Proof.
  intros Hpre. unfold formatPath.
  assert (String.eqb (pre +:+ "%s" +:+ post) "" = false) as ->.
  { apply String.eqb_neq. by destruct pre. }
  unfold indexOf.
  destruct (Z.eqb_spec (indexOfFrom "%" (pre +:+ "%s" +:+ post) 0) (-1))
    as [Hno|_].
  { by apply indexOfFrom_found in Hno. }
  cbn [negb]. unfold util_format.
  rewrite (format_go_prefix pre _ _ 0) by done.
  rewrite !append_cons, append_empty_l. cbn [format_go Ascii.eqb Bool.eqb orb].
  destruct (format_go post []) as [r a].
  by rewrite !append_assoc.
Qed.

(** ** Command line options *)

Lemma applyUrl_returns (o o1 : Options) (t : list Effect) :
  applyUrl o = Returns t o1 →
  output o1 = output o ∧ colls o1 = colls o ∧ all o1 = all o
  ∧ verbose o1 = verbose o.
Proof.
  unfold applyUrl. destruct o; cbn.
  repeat case_match; intros; simplify_eq; done.
Qed.

Lemma applyUrl_exits (o : Options) (t : list Effect) :
  applyUrl o = Exits t → ∃ msg, t = [ConsoleError msg; ProcessExit 1].
Proof.
  unfold applyUrl. repeat case_match; intros; simplify_eq. by eexists.
Qed.

Lemma setDefaults_fields (o : Options) :
  output (setDefaults o) = output o ∧ colls (setDefaults o) = colls o
  ∧ all (setDefaults o) = all o ∧ verbose (setDefaults o) = verbose o.
Proof.
  unfold setDefaults. destruct o; cbn. repeat case_match; done.
Qed.

(** More than one output path, with a marker in the first or a count
    that differs from the number of collections, ends the process. *)
Lemma processOutput_fatal (o : Options) (O : list string) :
  output o = Some O → (1 < length O)%nat →
  indexOf (default "" (O !! 0%nat)) "%s" ≠ -1 ∨ length O ≠ length (colls o) →
  ∃ msg, processOutput o = Exits [ConsoleError msg; ProcessExit 1].
Proof.
  intros HO Hlen Hcond. unfold processOutput. destruct o; cbn in HO, Hcond.
  subst. cbn -[Nat.eqb Nat.ltb indexOf length].
  assert ((0 <? length O)%nat = true) as -> by (apply Nat.ltb_lt; lia).
  assert ((1 <? length O)%nat = true) as -> by (by apply Nat.ltb_lt).
  destruct (Z.eqb_spec (indexOf (default "" (O !! 0%nat)) "%s") (-1)) as [Hno|_].
  - destruct Hcond as [? | Hne]; [done |].
    apply Nat.eqb_neq in Hne. rewrite Hne. by eexists.
  - by eexists.
Qed.

(** C7: with more than one output path, a marker in the first path or a
    number of paths different from the number of collections makes option
    processing print an error and exit with status 1; the script then
    builds no mapping and opens no connection. *)
Theorem C7_ambiguous_outputs_fatal (o : Options) (O : list string) (now : Z) :
  output o = Some O → (1 < length O)%nat →
  indexOf (default "" (O !! 0%nat)) "%s" ≠ -1
  ∨ length O ≠ length (argv_remain o) →
  (∃ msg, processCliOptions (set_colls (argv_remain o) o)
          = Exits [ConsoleError msg; ProcessExit 1])
  ∧ (version o = false → help o = false →
     ∃ t, main o now = Exits (t ++ [ProcessExit 1])
          ∧ (∃ msg, ConsoleError msg ∈ t) ∧ DdpConnect ∉ t).
Proof.
  intros HO Hlen Hcond.
  assert (∃ msg, processCliOptions (set_colls (argv_remain o) o)
                 = Exits [ConsoleError msg; ProcessExit 1]) as Hfatal.
  { unfold processCliOptions.
    destruct (applyUrl (set_colls (argv_remain o) o)) as [t|t o1] eqn:Hurl.
    - apply applyUrl_exits in Hurl as [msg ->]. by eexists.
    - apply applyUrl_returns in Hurl as (Hout & Hcolls & _).
      destruct (setDefaults_fields o1) as (Hout' & Hcolls' & _).
      apply (processOutput_fatal _ O).
      + rewrite Hout', Hout. by destruct o.
      + done.
      + rewrite Hcolls', Hcolls. by destruct o. }
  split; [done |]. intros Hv Hh. unfold main. rewrite Hv, Hh.
  destruct (_ && _).
  - eexists [_; _; _; _]. split; [reflexivity |].
    split; [eexists; apply elem_of_cons; by left |].
    unfold usage, log. cbn. rewrite !elem_of_cons, elem_of_nil.
    intros [?|[?|[?|[?|[]]]]]; done.
  - destruct Hfatal as [msg ->]. exists [ConsoleError msg].
    split; [done |]. split; [eexists; apply elem_of_cons; by left |].
    rewrite list_elem_of_singleton. done.
Qed.

(** ** The mapping from paths to collections *)

Lemma arrayIndexOfFrom_lower (x : string) (l : list string) (i : Z) :
  arrayIndexOfFrom x l i = -1 ∨ i ≤ arrayIndexOfFrom x l i.
Proof.
  revert i. induction l as [|y l IH]; intros i; cbn; [lia |].
  destruct (String.eqb y x); [lia |]. destruct (IH (i + 1)); lia.
Qed.

Lemma arrayIndexOfFrom_absent (x : string) (l : list string) (i : Z) :
  0 ≤ i → arrayIndexOfFrom x l i = -1 ↔ x ∉ l.
Proof.
  revert i. induction l as [|y l IH]; intros i Hi; cbn.
  - split; [intros _; apply not_elem_of_nil | done].
  - rewrite not_elem_of_cons. destruct (String.eqb_spec y x) as [->|Hne].
    + split; [lia | intros []; done].
    + rewrite IH by lia. split; [by intros ? | by intros [_ ?]].
Qed.

Lemma arrayIndexOf_absent (x : string) (l : list string) :
  arrayIndexOf l x = -1 ↔ x ∉ l.
Proof. by apply arrayIndexOfFrom_absent. Qed.

Lemma addPathToMapping_lookup (m : gmap string (list string))
    (path : option string) (c k : string) :
  addPathToMapping m path c !! k
  = if decide (String_of path = k)
    then Some (default [] (m !! k) ++ [c]) else m !! k.
Proof.
  unfold addPathToMapping. rewrite lookup_insert.
  by destruct (decide (String_of path = k)) as [->|].
Qed.

(** The mapping built from a list of collections holds, under each key,
    what was there before followed by the collections sent to that key. *)
Lemma reduceFrom_lookup (g : string → nat → option string) (l : list string)
    (m : gmap string (list string)) (i : nat) (k : string) :
  reduceFrom (λ m c i, addPathToMapping m (g c i) c) m i l !! k
  = match assigned g k i l with
    | [] => m !! k
    | cs => Some (default [] (m !! k) ++ cs)
    end.
Proof.
  revert m i. induction l as [|c l IH]; intros m i; [done |].
  cbn [reduceFrom assigned]. rewrite IH, addPathToMapping_lookup.
  destruct (decide (String_of (g c i) = k)) as [Hk|Hk]; [| done].
  destruct (assigned g k (S i) l); [done |].
  cbn. by rewrite <-app_assoc.
Qed.

Lemma assigned_elem (g : string → nat → option string) (k : string)
    (l : list string) (i j : nat) (c : string) :
  l !! j = Some c → String_of (g c (i + j)%nat) = k → c ∈ assigned g k i l.
Proof.
  revert i j. induction l as [|d l IH]; intros i [|j] Hj Hk; try done;
    cbn in Hj; cbn [assigned].
  - injection Hj as ->. rewrite Nat.add_0_r in Hk.
    rewrite decide_True by done. apply elem_of_cons. by left.
  - apply elem_of_app. right. apply (IH (S i) j); [done |].
    by rewrite Nat.add_succ_comm.
Qed.

Lemma assigned_none (g : string → nat → option string) (k : string)
    (l : list string) (i : nat) :
  (∀ j d, l !! j = Some d → String_of (g d (i + j)%nat) ≠ k) →
  assigned g k i l = [].
Proof.
  revert i. induction l as [|d l IH]; intros i Hall; [done |].
  cbn [assigned]. rewrite decide_False.
  - apply IH. intros j e Hj. rewrite Nat.add_succ_comm. by apply (Hall (S j)).
  - specialize (Hall 0%nat d eq_refl). by rewrite Nat.add_0_r in Hall.
Qed.

Lemma assigned_alone (g : string → nat → option string) (k : string)
    (l : list string) (i j : nat) (c : string) :
  l !! j = Some c → String_of (g c (i + j)%nat) = k →
  (∀ j' d, l !! j' = Some d → j' ≠ j → String_of (g d (i + j')%nat) ≠ k) →
  assigned g k i l = [c].
Proof.
  revert i j. induction l as [|d l IH]; intros i [|j] Hj Hk Hothers;
    try done; cbn in Hj; cbn [assigned].
  - injection Hj as ->. rewrite Nat.add_0_r in Hk.
    rewrite decide_True by done.
    rewrite assigned_none; [done |].
    intros j d Hd. rewrite Nat.add_succ_comm. by apply (Hothers (S j)).
  - rewrite decide_False.
    + apply (IH (S i) j); [done | by rewrite Nat.add_succ_comm |].
      intros j' e He Hne. rewrite Nat.add_succ_comm.
      apply (Hothers (S j')); [done | lia].
    + specialize (Hothers 0%nat d eq_refl). rewrite Nat.add_0_r in Hothers.
      apply Hothers. lia.
Qed.

Lemma processOutput_split (o o' : Options) (t : list Effect) (O : list string) :
  output o = Some O → processOutput o = Returns t o' →
  indexOf (default "" (O !! 0%nat)) "%s" ≠ -1 ∨ length O = length (colls o) →
  ∀ i c, colls o !! i = Some c →
    colls o' = colls o ∧ saveToFile o' = true ∧ mergeCollections o' = false
    ∧ ∃ tmpl, files o' !! i = Some tmpl
        ∧ (if decide (indexOf (default "" (O !! 0%nat)) "%s" = -1)
           then O !! i else O !! 0%nat) = Some tmpl.
Proof.
  intros HO Hret Hcond i c Hc. unfold processOutput in Hret.
  destruct o; cbn in HO, Hcond, Hc. subst.
  cbn -[Nat.eqb Nat.ltb indexOf length] in Hret |- *.
  destruct O as [|O0 Or].
  { destruct Hcond as [? | Hlen]; [done |].
    destruct colls0; [done | discriminate Hlen]. }
  cbn -[Nat.eqb indexOf] in Hret, Hcond |- *.
  destruct (decide (indexOf O0 "%s" = -1)) as [Hno|Hmark].
  - destruct Hcond as [? | Hlen]; [done |].
    rewrite Hno in Hret. cbn -[Nat.eqb] in Hret.
    rewrite Hlen, Nat.eqb_refl in Hret. simplify_eq. cbn.
    repeat split; try done.
    destruct (lookup_lt_is_Some_2 (O0 :: Or) i) as [tmpl Htmpl]; [| by eexists].
    cbn [length]. rewrite Hlen. by eapply lookup_lt_Some.
  - apply Z.eqb_neq in Hmark. rewrite Hmark in Hret. cbn in Hret.
    destruct Or; [| done]. cbn in Hret.
    destruct colls0 as [|c0 colls0]; [done |]. simplify_eq. cbn.
    repeat split; try done. exists O0. split; [| done].
    change (((λ _, O0) <$> c0 :: colls0) !! i = Some O0).
    by rewrite list_lookup_fmap, Hc.
Qed.

(** C5 (amended): in split mode, when no requested collection resolves
    to a path that is the name of an inherited property, the collection
    at position [i] goes to the path that [formatPath] makes from the
    template (the single marker template, or the output at position
    [i]); that path lists the collection, and lists it alone whenever no
    other requested collection resolves to the same path. *)
Theorem C5_split_destinations (o o' : Options) (t : list Effect)
    (O : list string) (i : nat) (c : string) :
  output o = Some O →
  indexOf (default "" (O !! 0%nat)) "%s" ≠ -1 ∨ length O = length (colls o) →
  processCliOptions o = Returns t o' →
  colls o !! i = Some c →
  (∀ j d, colls o !! j = Some d →
     String_of (generateFilename o' d j) ∉ Object_prototype_keys) →
  ∃ tmpl p,
    (if decide (indexOf (default "" (O !! 0%nat)) "%s" = -1)
     then O !! i else O !! 0%nat) = Some tmpl
    ∧ p = formatPath (Some tmpl) c
    ∧ generateFilename o' c i = Some p
    ∧ c ∈ default [] (buildMapping o' !! p)
    ∧ ((∀ j d, colls o !! j = Some d → j ≠ i →
          generateFilename o' d j ≠ Some p) →
       buildMapping o' !! p = Some [c]).
Proof.
  intros HO Hcond Hret Hc _. unfold processCliOptions in Hret.
  destruct (applyUrl o) as [|t1 o1] eqn:Hurl; [done |].
  apply applyUrl_returns in Hurl as (Hout & Hcolls & _).
  destruct (setDefaults_fields o1) as (Hout' & Hcolls' & _).
  assert (colls (setDefaults o1) = colls o) as Hcs by congruence.
  assert (output (setDefaults o1) = Some O) as HO' by congruence.
  rewrite <-Hcs in Hcond, Hc.
  destruct (processOutput_split _ _ _ _ HO' Hret Hcond i c Hc)
    as (Hcolls2 & Hsave & Hmerge & tmpl & Hfile & Htmpl).
  assert (generateFilename o' c i = Some (formatPath (Some tmpl) c)) as Hgen.
  { unfold generateFilename. by rewrite Hsave, Hmerge, Hfile. }
  exists tmpl, (formatPath (Some tmpl) c).
  split; [done |]. split; [done |]. split; [done |].
  unfold buildMapping, reduce. rewrite reduceFrom_lookup, lookup_empty.
  rewrite Hcolls2. split.
  - assert (c ∈ assigned (generateFilename o') (formatPath (Some tmpl) c)
                0 (colls (setDefaults o1))) as Hin.
    { eapply assigned_elem; [done |]. cbn. by rewrite Hgen. }
    by destruct (assigned _ _ _ _).
  - intros Hothers.
    rewrite (assigned_alone _ _ _ 0%nat i c); [done | done | |].
    + cbn. by rewrite Hgen.
    + intros j d Hd Hne. cbn. rewrite Hcs in Hd.
      specialize (Hothers j d Hd Hne). rewrite <-Hcs in Hd.
      destruct (processOutput_split _ _ _ _ HO' Hret Hcond j d Hd)
        as (_ & Hsave' & _).
      unfold generateFilename in Hothers |- *. rewrite Hsave' in Hothers |- *.
      cbn. congruence.
Qed.

(** ** Entries of a collection in the mapping *)

Lemma occurrences_app (c : string) (l1 l2 : list string) :
  occurrences c (l1 ++ l2) = (occurrences c l1 + occurrences c l2)%nat.
Proof. unfold occurrences. by rewrite filter_app, length_app. Qed.

Lemma occurrences_single (c d : string) :
  occurrences c [d] = if decide (d = c) then 1%nat else 0%nat.
Proof.
  unfold occurrences. rewrite filter_cons, filter_nil.
  by destruct (decide (d = c)).
Qed.

Lemma occurrences_absent (c : string) (l : list string) :
  c ∉ l → occurrences c l = 0%nat.
Proof.
  induction l as [|d l IH]; [done |]. rewrite not_elem_of_cons.
  intros [Hne Hl]. change (d :: l) with ([d] ++ l).
  rewrite occurrences_app, occurrences_single, IH by done.
  by rewrite decide_False.
Qed.

Lemma entriesOf_insert_fresh (c k : string) (cols : list string)
    (m : gmap string (list string)) :
  m !! k = None →
  entriesOf c (<[k := cols]> m) = (occurrences c cols + entriesOf c m)%nat.
Proof.
  intros Hk. unfold entriesOf.
  rewrite map_fold_insert_L; [done | intros; lia | done].
Qed.

Lemma entriesOf_add (c d : string) (path : option string)
    (m : gmap string (list string)) :
  entriesOf c (addPathToMapping m path d)
  = (entriesOf c m + if decide (d = c) then 1 else 0)%nat.
Proof.
  unfold addPathToMapping. set (k := String_of path).
  destruct (m !! k) as [old|] eqn:Hk; cbn.
  - rewrite <-(insert_delete_id m k old) at 2 by done.
    rewrite <-insert_delete_eq.
    rewrite !entriesOf_insert_fresh by apply lookup_delete_eq.
    rewrite occurrences_app, occurrences_single. lia.
  - rewrite entriesOf_insert_fresh by done.
    rewrite occurrences_single. unfold entriesOf. lia.
Qed.

Lemma reduceFrom_entries (g : string → nat → option string) (c : string)
    (l : list string) (m : gmap string (list string)) (i : nat) :
  entriesOf c (reduceFrom (λ m c i, addPathToMapping m (g c i) c) m i l)
  = (entriesOf c m + occurrences c l)%nat.
Proof.
  revert m i. induction l as [|d l IH]; intros m i.
  - cbn. unfold occurrences. cbn. lia.
  - cbn [reduceFrom]. rewrite IH, entriesOf_add.
    change (d :: l) with ([d] ++ l).
    rewrite occurrences_app, occurrences_single. lia.
Qed.

(** At start-up the mapping has one entry for each requested
    collection. *)
Lemma main_entries (o : Options) (now : Z) (t : list Effect) (s : Session)
    (c : string) :
  main o now = Returns t s →
  entriesOf c (pathToCollectionMapping s) = occurrences c (colls (options s)).
Proof.
  unfold main. destruct (version o); [done |]. destruct (help o); [done |].
  destruct (_ && _); [done |].
  destruct (processCliOptions _) as [|t1 o1]; [done |].
  intros [= <- <-]. cbn [pathToCollectionMapping options].
  unfold buildMapping, reduce. rewrite reduceFrom_entries.
  unfold entriesOf. rewrite map_fold_empty. by destruct o1.
Qed.

Lemma discover_known (collections : gmap string (gmap string Doc))
    (s : Session) (t : list Effect) (n : string) :
  n ∈ colls (options s) → discover collections (s, t) n = (s, t).
Proof.
  intros Hin. unfold discover.
  destruct (Z.eqb_spec (arrayIndexOf (colls (options s)) n) (-1)) as [Habs|];
    [| done].
  by apply arrayIndexOf_absent in Habs.
Qed.

Lemma discover_new (collections : gmap string (gmap string Doc))
    (s : Session) (t : list Effect) (n : string) :
  n ∉ colls (options s) →
  discover collections (s, t) n
  = ({| options := set_colls (colls (options s) ++ [n]) (options s);
        pathToCollectionMapping :=
          addPathToMapping (pathToCollectionMapping s)
            (generateFilename (options s) n 0) n |},
     t ++ info (options s)
            ("Received unknown collection " +:+ dq +:+ "%s" +:+ dq
             +:+ " (%s rows)") [n; rowCount collections n]).
Proof.
  intros Hnot. unfold discover.
  apply arrayIndexOf_absent in Hnot. by rewrite Hnot.
Qed.

Lemma colls_set_colls (v : list string) (o : Options) :
  colls (set_colls v o) = v.
Proof. by destruct o. Qed.


(** ** The completion detector *)

Lemma detector_disarmed (o : Options) (events : list Event) :
  detector o false events = [].
Proof.
  revert o. induction events as [|[now|now] events IH]; intros o; cbn; auto.
Qed.

Lemma detector_app (o : Options) (pre rest : list Event) :
  detector o true (pre ++ rest)
  = match detector o true pre with
    | [] => detector (afterMessages o pre) true rest
    | fired => fired
    end.
Proof.
  revert o. induction pre as [|[now|now] pre IH]; intros o; cbn; [done | auto |].
  destruct (timeoutExceeded o now); [| auto].
  by rewrite !detector_disarmed.
Qed.

Lemma detector_once (o : Options) (events : list Event) :
  (length (detector o true events) ≤ 1)%nat.
Proof.
  revert o. induction events as [|[now|now] events IH]; intros o; cbn;
    [lia | auto |].
  destruct (timeoutExceeded o now); [| auto].
  rewrite detector_disarmed. cbn. lia.
Qed.

(** While every check so far saw a gap of at most [timeout], the
    callback has not been called. *)
Lemma detector_quiet (o : Options) (pre : list Event) :
  (∀ p1 t p2, pre = p1 ++ Timer t :: p2 →
     timeoutExceeded (afterMessages o p1) t = false) →
  detector o true pre = [].
Proof.
  revert o. induction pre as [|[now|now] pre IH]; intros o Hquiet; cbn;
    [done | |].
  - apply IH. intros p1 t p2 ->. by apply (Hquiet (Message now :: p1) t p2).
  - pose proof (Hquiet [] now pre eq_refl) as Hnow. cbn in Hnow.
    rewrite Hnow. apply IH. intros p1 t p2 ->.
    by apply (Hquiet (Timer now :: p1) t p2).
Qed.

(** Every call of the callback happens in a check that saw a gap above
    [timeout]. *)
Lemma detector_fired (o : Options) (events : list Event) (now : Z) :
  now ∈ detector o true events →
  ∃ pre post, events = pre ++ Timer now :: post
    ∧ timeoutExceeded (afterMessages o pre) now = true.
Proof.
  revert o. induction events as [|[t|t] events IH]; intros o; cbn.
  - by intros ?%elem_of_nil.
  - intros (pre & post & -> & Hgap)%IH. by exists (Message t :: pre), post.
  - destruct (timeoutExceeded o t) eqn:Hgap.
    + rewrite detector_disarmed. intros ->%list_elem_of_singleton.
      by exists [], events.
    + intros (pre & post & -> & Hgap')%IH. by exists (Timer t :: pre), post.
Qed.

(** The function given to [setTimeout] makes the choice that [detector]
    follows: it starts the export when the gap is above [timeout] and
    sets the next timer otherwise. *)
Lemma timerCallback_choice (s : Session)
    (collections : gmap string (gmap string Doc)) (now : Z) :
  if timeoutExceeded (options s) now
  then timerCallback s collections now
       = ((receivedLastDDPMessage s collections).1.1,
          Some (receivedLastDDPMessage s collections).1.2,
          (receivedLastDDPMessage s collections).2)
  else timerCallback s collections now = (s, None, [SetTimeout (timeout (options s))]).
Proof.
  unfold timerCallback. destruct (timeoutExceeded (options s) now); [| done].
  by destruct (receivedLastDDPMessage s collections) as [[s1 am] t].
Qed.

Lemma timeoutExceeded_gap (o : Options) (now : Z) :
  timeoutExceeded o now = true
  ↔ ∃ limit, timeout o = Some limit ∧ limit < now - lastMessageDate o.
Proof.
  unfold timeoutExceeded. destruct (timeout o) as [limit|]; cbn.
  - rewrite Z.ltb_lt. split; [by exists limit | by intros (? & [= <-] & ?)].
  - split; [done | by intros (? & ? & _)].
Qed.

Lemma timeout_afterMessages (o : Options) (events : list Event) :
  timeout (afterMessages o events) = timeout o.
Proof.
  revert o. induction events as [|[t|t] events IH]; intros o; cbn; [done | |].
  - rewrite IH. by destruct o.
  - apply IH.
Qed.

Lemma lastMessageDate_afterMessages (o : Options) (events : list Event) :
  lastMessageDate (afterMessages o events)
  = default (lastMessageDate o) (last (messageTimes events)).
Proof.
  revert o. induction events as [|[t|t] events IH]; intros o; cbn [afterMessages
    messageTimes]; [done | |].
  - rewrite IH, last_cons. destruct (last (messageTimes events)); [done |].
    by destruct o.
  - apply IH.
Qed.

Lemma messageTimes_app (l1 l2 : list Event) :
  messageTimes (l1 ++ l2) = messageTimes l1 ++ messageTimes l2.
Proof.
  induction l1 as [|[t|t] l1 IH]; cbn; [done | by rewrite IH | done].
Qed.

Lemma messageTimes_elem (x : Z) (l : list Event) :
  x ∈ messageTimes l → ∃ e, e ∈ l ∧ eventTime e = x.
Proof.
  induction l as [|[t|t] l IH]; cbn.
  - by intros ?%elem_of_nil.
  - intros [->|Hin]%elem_of_cons.
    + exists (Message t). split; [apply elem_of_cons; by left | done].
    + destruct (IH Hin) as (e & He & <-). exists e.
      split; [apply elem_of_cons; by right | done].
  - intros Hin. destruct (IH Hin) as (e & He & <-). exists e.
    split; [apply elem_of_cons; by right | done].
Qed.

Lemma chronologicalFrom_lower (t : Z) (l : list Event) (e : Event) :
  chronologicalFrom t l = true → e ∈ l → t ≤ eventTime e.
Proof.
  revert t. induction l as [|d l IH]; intros t; cbn.
  - by intros _ ?%elem_of_nil.
  - intros [Hd Hl]%andb_prop [->|Hin]%elem_of_cons; [lia |].
    specialize (IH _ Hl Hin). lia.
Qed.

Lemma chronologicalFrom_app (t : Z) (pre : list Event) (e : Event)
    (post : list Event) :
  chronologicalFrom t (pre ++ e :: post) = true →
  chronologicalFrom (eventTime e) post = true.
Proof.
  revert t. induction pre as [|d pre IH]; intros t; cbn.
  - by intros [_ ?]%andb_prop.
  - intros [_ ?]%andb_prop. eauto.
Qed.

(** The spec's scenario: with the last message so far at 0, messages at
    100 and 200 and a timeout of 150, no check up to 350 calls the
    callback, whenever the checks happen. *)
Lemma detector_idle_scenario (o : Options) (events : list Event) (now : Z) :
  timeout o = Some 150 → lastMessageDate o = 0 →
  chronologicalFrom 0 events = true → messageTimes events = [100; 200] →
  now ∈ detector o true events → 350 < now.
Proof.
  intros Hlimit Hlast Hchron Hmsgs (pre & post & -> & Hgap)%detector_fired.
  apply timeoutExceeded_gap in Hgap as (limit & Hlimit' & Hgap).
  rewrite timeout_afterMessages, Hlimit in Hlimit'. injection Hlimit' as <-.
  rewrite lastMessageDate_afterMessages, Hlast in Hgap.
  rewrite messageTimes_app in Hmsgs. cbn in Hmsgs.
  apply chronologicalFrom_app in Hchron. cbn in Hchron.
  assert (∀ x, x ∈ messageTimes post → now ≤ x) as Hlater.
  { intros x (e & He & <-)%messageTimes_elem.
    by apply (chronologicalFrom_lower now post). }
  destruct (messageTimes pre) as [|a [|b [|c rest]]]; cbn in Hmsgs, Hgap.
  - specialize (Hlater 100). rewrite Hmsgs in Hlater.
    specialize (Hlater ltac:(apply elem_of_cons; by left)). lia.
  - injection Hmsgs as -> Hpost. specialize (Hlater 200).
    rewrite Hpost in Hlater.
    specialize (Hlater ltac:(apply elem_of_cons; by left)). lia.
  - injection Hmsgs as -> -> _. lia.
  - discriminate Hmsgs.
Qed.

(** ** The dumped object *)

Lemma gather_from_lookup (collections : gmap string (gmap string Doc))
    (cols : list string) (data : gmap string (gmap string Doc)) (c : string) :
  foldl (λ data col,
           match collections !! col with
           | None => data
           | Some r => <[col := r]> data
           end) data cols !! c
  = if decide (c ∈ cols)
    then match collections !! c with Some r => Some r | None => data !! c end
    else data !! c.
Proof.
  revert data. induction cols as [|d cols IH]; intros data; cbn [foldl].
  - rewrite decide_False; [done | apply not_elem_of_nil].
  - rewrite IH. destruct (decide (c = d)) as [->|Hne].
    + rewrite (decide_True (P := d ∈ d :: cols)) by (apply elem_of_cons; by left).
      destruct (collections !! d) as [r|] eqn:Hd.
      * rewrite lookup_insert_eq. by destruct (decide (d ∈ cols)).
      * by destruct (decide (d ∈ cols)).
    + assert ((match collections !! d with
               | Some r => <[d := r]> data
               | None => data
               end) !! c = data !! c) as ->.
      { destruct (collections !! d); [by rewrite lookup_insert_ne | done]. }
      destruct (decide (c ∈ cols)) as [Hin|Hnot].
      * rewrite decide_True; [done | apply elem_of_cons; by right].
      * rewrite decide_False; [done |].
        rewrite not_elem_of_cons. by split.
Qed.

Lemma gather_lookup (collections : gmap string (gmap string Doc))
    (cols : list string) (c : string) :
  gather collections cols !! c
  = if decide (c ∈ cols) then collections !! c else None.
Proof.
  unfold gather. rewrite gather_from_lookup, lookup_empty.
  destruct (decide (c ∈ cols)); [| done]. by destruct (collections !! c).
Qed.

(** C9: for a path of the mapping, [writeData] does not throw and hands
    the writer one object; the object has, for each collection of that
    path that the server has sent, the key of that name with the
    collection's documents, and no other key; a path with one collection
    gives an object with that one key. *)
Theorem C9_payload (s : Session) (collections : gmap string (gmap string Doc))
    (path : string) (cols : list string) :
  pathToCollectionMapping s !! path = Some cols →
  ∃ buffer : gmap string (gmap string Doc),
    writeData s collections path
    = (if saveToFile (options s)
       then Went (writeJSON (options s) path buffer (compress (options s))) None
       else Went (writeLog path buffer (compress (options s)))
              (Some (None, ())))
    ∧ FsWriteFile path (stringify buffer (compress (options s)))
      ∈ writeJSON (options s) path buffer (compress (options s))
    ∧ (∀ c, buffer !! c = if decide (c ∈ cols) then collections !! c else None)
    ∧ (∀ c records, cols = [c] → collections !! c = Some records →
         buffer = {[ c := records ]}).
Proof.
  intros Hpath. exists (gather collections cols).
  split; [| split; [| split]].
  - unfold writeData. rewrite Hpath. by destruct (saveToFile (options s)).
  - unfold writeJSON. apply elem_of_app. right. apply elem_of_cons. by left.
  - apply gather_lookup.
  - intros c records -> Hc. unfold gather. cbn. by rewrite Hc, insert_empty.
Qed.

(** ** Reports *)

Lemma format_go_marker (pre rest x : string) (args : list string) :
  indexOf pre "%" = -1 →
  format_go (pre +:+ "%s" +:+ rest) (x :: args)
  = let '(r, a) := format_go rest args in (pre +:+ x +:+ r, a).
Proof.
  intros Hpre. rewrite (format_go_prefix pre _ _ 0) by done.
  rewrite !append_cons, append_empty_l. cbn [format_go Ascii.eqb Bool.eqb orb].
  by destruct (format_go rest args).
Qed.

(** The text of the warning for a failed subscription. *)
Lemma subscription_warning_text (n m : string) :
  util_format ("Error: Could not subscribe to collection " +:+ dq +:+ "%s"
               +:+ dq +:+ ":" +:+ nl +:+ "%s") [n; m]
  = "Error: Could not subscribe to collection " +:+ dq +:+ n +:+ dq +:+ ":"
    +:+ nl +:+ m.
Proof.
  unfold util_format.
  change ("Error: Could not subscribe to collection " +:+ dq +:+ "%s"
          +:+ dq +:+ ":" +:+ nl +:+ "%s")
    with (("Error: Could not subscribe to collection " +:+ dq) +:+ "%s"
          +:+ (dq +:+ ":" +:+ nl) +:+ "%s" +:+ "").
  rewrite format_go_marker by reflexivity.
  rewrite format_go_marker by reflexivity.
  cbn. by rewrite !append_empty_r, !append_assoc.
Qed.

(** C1 (amended): when the handshake fails the callback of [ddp.connect]
    reports the failure through [info], which prints it in verbose mode,
    and returns; it does not end the process, subscribes to nothing,
    starts no timer, writes no file and does not close the connection. *)
Theorem C1_connect_failure (o : Options)
    (collections : gmap string (gmap string Doc)) (e : JsError) :
  let t := (connectCallback o collections (Some e)).2 in
  t = info o "Error: DDP connection failed" []
  ∧ (verbose o = true → t = [ConsoleLog "Error: DDP connection failed"])
  ∧ (∀ code, ProcessExit code ∉ t)
  ∧ (∀ n, DdpSubscribe n ∉ t)
  ∧ (∀ d, SetTimeout d ∉ t)
  ∧ (∀ path content, FsWriteFile path content ∉ t)
  ∧ DdpClose ∉ t.
Proof.
  cbn. unfold info. destruct (verbose o); cbn.
  - repeat split; try done; intros; by intros [?|?%elem_of_nil]%elem_of_cons.
  - repeat split; try done; intros; apply not_elem_of_nil.
Qed.

(** C8: the callback of [ddp.subscribe] never passes an error on to
    [async.map]; for every list of results, [processSubscribtionResults]
    prints for each failed subscription a warning with the name of the
    collection and the message of the error, does not end the process,
    handles every other result, and ends by starting the wait. *)
Theorem C8_subscription_failure_not_fatal (o : Options)
    (collections : gmap string (gmap string Doc)) (results : list SubResult) :
  (∀ n e, (subscribeCallback n e).1 = None
          ∧ (subscribeCallback n e).2 = {| name := n; err := e |})
  ∧ (∀ r e, r ∈ results → err r = Some e →
       ConsoleError ("Error: Could not subscribe to collection " +:+ dq
                     +:+ name r +:+ dq +:+ ":" +:+ nl +:+ message e)
       ∈ processSubscribtionResults o collections results)
  ∧ (∀ r, r ∈ results → err r = None → verbose o = true →
       ∃ text, ConsoleLog text ∈ processSubscribtionResults o collections results)
  ∧ (∀ code, ProcessExit code
             ∉ processSubscribtionResults o collections results)
  ∧ (∃ reports, processSubscribtionResults o collections results
                = reports ++ [SetTimeout (timeout o)]
       ∧ ∀ d, SetTimeout d ∉ reports).
Proof.
  split; [done |]. unfold processSubscribtionResults, waitForTimeout.
  split; [| split; [| split]].
  - intros r e Hr He. apply elem_of_app. left.
    apply list_elem_of_In, in_flat_map. exists r.
    split; [by apply list_elem_of_In |].
    rewrite He. unfold error. rewrite subscription_warning_text. by left.
  - intros r Hr He Hv. eexists. apply elem_of_app. left.
    apply list_elem_of_In, in_flat_map. exists r.
    split; [by apply list_elem_of_In |].
    rewrite He. unfold info. rewrite Hv. by left.
  - intros code [Hin|Hin]%elem_of_app.
    + apply list_elem_of_In, in_flat_map in Hin as (r & _ & Hin).
      unfold error, info, log in Hin.
      destruct (err r), (verbose o); cbn in Hin; intuition discriminate.
    + by apply list_elem_of_singleton in Hin.
  - eexists. split; [done |].
    intros d Hin. apply list_elem_of_In, in_flat_map in Hin as (r & _ & Hin).
    unfold error, info, log in Hin.
    destruct (err r), (verbose o); cbn in Hin; intuition discriminate.
Qed.

(** ** The async library *)

Section AsyncProperties.
Context {R : Type} (final : option JsError → list R → list Effect).

Lemma asyncMap_run_app (am : AsyncMap R)
    (l1 l2 : list (nat * option JsError * R)) :
  asyncMap_run final am (l1 ++ l2)
  = let '(am1, t1) := asyncMap_run final am l1 in
    let '(am2, t2) := asyncMap_run final am1 l2 in
    (am2, t1 ++ t2).
Proof.
  revert am. induction l1 as [|[[i e] v] l1 IH]; intros am; cbn [asyncMap_run app].
  - by destruct (asyncMap_run final am l2).
  - destruct (asyncMap_done final am i e v) as [am1 t1]. rewrite IH.
    destruct (asyncMap_run final am1 l1) as [am2 t2].
    destruct (asyncMap_run final am2 l2) as [am3 t3]. by rewrite app_assoc.
Qed.

(** Once the final callback has been called, no later event calls it. *)
Lemma asyncMap_run_settled (am : AsyncMap R)
    (events : list (nat * option JsError * R)) :
  due am = false → (asyncMap_run final am events).2 = [].
Proof.
  revert am. induction events as [|[[i e] v] events IH]; intros am Hdue;
    [done |].
  cbn [asyncMap_run]. unfold asyncMap_done. rewrite Hdue.
  destruct e as [e|]; [| destruct (_ =? _)%nat].
  all: match goal with
       | |- context [asyncMap_run final ?a ?evs] =>
           specialize (IH a); destruct (asyncMap_run final a evs)
       end; cbn in *; by rewrite IH.
Qed.

(** While fewer callbacks than items have come, all without an error,
    the final callback stays due and is not called. *)
Lemma asyncMap_run_waiting (am : AsyncMap R)
    (events : list (nat * option JsError * R)) :
  due am = true → Forall (λ ev, ev.1.2 = None) events →
  (length events < outstanding am)%nat →
  (asyncMap_run final am events).2 = []
  ∧ due (asyncMap_run final am events).1 = true
  ∧ outstanding (asyncMap_run final am events).1
    = (outstanding am - length events)%nat.
Proof.
  revert am. induction events as [|[[i e] v] events IH]; intros am Hdue Hok Hlen.
  - cbn. repeat split; [done | lia].
  - apply Forall_cons in Hok as [He Hok]. cbn in He, Hlen. subst e.
    cbn [asyncMap_run]. unfold asyncMap_done.
    destruct (Nat.eqb_spec (pred (outstanding am)) 0) as [Hz|Hnz]; [lia |].
    match goal with
    | |- context [asyncMap_run final ?a ?evs] =>
        specialize (IH a Hdue Hok); destruct (asyncMap_run final a evs)
    end.
    cbn in *. destruct IH as (-> & -> & ->); [lia |].
    repeat split; [done.. | lia].
Qed.


(** Without an error the final callback is called when the last callback
    comes, and not before. *)
Lemma asyncMap_run_all (am : AsyncMap R)
    (events : list (nat * option JsError * R)) :
  due am = true → Forall (λ ev, ev.1.2 = None) events →
  length events = outstanding am → events ≠ [] →
  (asyncMap_run final am events).2
  = final None (omap id (results (asyncMap_run final am events).1))
  ∧ ∀ pre ev post, events = pre ++ ev :: post → post ≠ [] →
      (asyncMap_run final am (pre ++ [ev])).2 = [].
Proof.
  intros Hdue Hok Hlen Hne. split.
  - destruct (exists_last Hne) as (pre & [[i e] v] & ->).
    apply Forall_app in Hok as [Hpre [He _]%Forall_cons]. cbn in He. subst e.
    rewrite length_app in Hlen. cbn in Hlen.
    destruct (asyncMap_run_waiting am pre Hdue Hpre) as (Ht & Hdue' & Hout);
      [lia |].
    rewrite asyncMap_run_app.
    destruct (asyncMap_run final am pre) as [am1 t1]. cbn in Ht, Hdue', Hout.
    subst t1. cbn [asyncMap_run]. unfold asyncMap_done. rewrite Hdue', Hout.
    assert ((pred (outstanding am - length pre) =? 0)%nat = true) as ->
      by (apply Nat.eqb_eq; lia).
    cbn. by rewrite app_nil_r.
  - intros pre ev post -> Hpost.
    apply (asyncMap_run_waiting am (pre ++ [ev]) Hdue).
    + apply Forall_app in Hok as [Hpre [Hev _]%Forall_cons].
      apply Forall_app. split; [done |]. by apply Forall_cons.
    + rewrite <-Hlen, !length_app. cbn. destruct post; [done |]. cbn. lia.
Qed.

End AsyncProperties.

(** ** Export *)

Lemma writesCompleted_run (am : AsyncMap ()) (events : list (nat * option JsError)) :
  writesCompleted am events
  = asyncMap_run (λ err _, finish err) am ((λ ev, (ev.1, ev.2, ())) <$> events).
Proof.
  revert am. induction events as [|[i e] events IH]; intros am; [done |].
  cbn [writesCompleted fmap list_fmap asyncMap_run fst snd].
  unfold writeCompleted. destruct (asyncMap_done _ am i e ()) as [am1 t1].
  by rewrite IH.
Qed.

Lemma Object_keys_elem {V : Type} (m : gmap string V) (k : string) :
  k ∈ Object_keys m ↔ is_Some (m !! k).
Proof.
  unfold Object_keys. rewrite list_elem_of_fmap. split.
  - intros ([k' v] & -> & Hin). apply elem_of_map_to_list in Hin. by exists v.
  - intros [v Hv]. exists (k, v). split; [done |]. by apply elem_of_map_to_list.
Qed.

(** An iterator that leaves its callback to later events changes nothing
    in the state of [async.map]; the trace is that of its calls. *)
Lemma asyncMap_each_pending {R : Type}
    (final : option JsError → list R → list Effect)
    (iterator : string → Called R) (tr : string → list Effect)
    (am : AsyncMap R) (i : nat) (items : list string) :
  (∀ x, x ∈ items → iterator x = Went (tr x) None) →
  asyncMap_each final iterator am i items = (am, flat_map tr items).
Proof.
  revert i. induction items as [|x items IH]; intros i Hall; [done |].
  cbn [asyncMap_each flat_map].
  rewrite (Hall x) by (apply elem_of_cons; by left).
  rewrite IH; [by cbn |]. intros y Hy. apply Hall, elem_of_cons. by right.
Qed.

Lemma info_logs (o : Options) (fmt : string) (args : list string) :
  Forall (λ eff, ∃ text, eff = ConsoleLog text) (info o fmt args).
Proof.
  unfold info, log. destruct (verbose o); repeat constructor. by eexists.
Qed.

Lemma foldl_discover (collections : gmap string (gmap string Doc))
    (names : list string) (s : Session) (t : list Effect) :
  saveToFile (options (foldl (discover collections) (s, t) names).1)
  = saveToFile (options s)
  ∧ ∃ extra, ((foldl (discover collections) (s, t) names).2 = t ++ extra)
      ∧ Forall (λ eff, ∃ text, eff = ConsoleLog text) extra.
Proof.
  revert s t. induction names as [|n names IH]; intros s t; cbn [foldl].
  - split; [done |]. exists []. by rewrite app_nil_r.
  - unfold discover at 2 4. destruct (_ =? _).
    + match goal with
      | |- context [foldl _ (?s1, ?t1) names] =>
          destruct (IH s1 t1) as (-> & extra & -> & Hextra)
      end.
      split; [by destruct (options s) |].
      eexists. rewrite <-app_assoc. split; [done |].
      apply Forall_app. split; [apply info_logs | done].
    + apply IH.
Qed.

Lemma discoverAll_trace (s : Session) (collections : gmap string (gmap string Doc)) :
  saveToFile (options (discoverAll s collections).1) = saveToFile (options s)
  ∧ Forall (λ eff, ∃ text, eff = ConsoleLog text) (discoverAll s collections).2.
Proof.
  unfold discoverAll. destruct (_ && _); [| by split].
  destruct (foldl_discover collections (Object_keys collections) s [])
    as (-> & extra & -> & Hextra).
  by split.
Qed.


(** ** The event loop *)

Lemma timersSet_app (t1 t2 : list Effect) :
  timersSet (t1 ++ t2) = (timersSet t1 + timersSet t2)%nat.
Proof.
  induction t1 as [|e t1 IH]; [done |]. destruct e; cbn; by rewrite ?IH.
Qed.

Lemma timersSet_logs (t : list Effect) :
  Forall (λ eff, ∃ text, eff = ConsoleLog text) t → timersSet t = 0%nat.
Proof. induction 1 as [|e t [text ->] _ IH]; [done | by cbn]. Qed.

Lemma timersSet_none (t : list Effect) :
  timersSet t = 0%nat ↔ ∀ d, SetTimeout d ∉ t.
Proof.
  induction t as [|e t IH]; cbn.
  - split; [intros _ d; apply not_elem_of_nil | done].
  - destruct e; rewrite ?IH; try (split; [intros Hno d [?|?]%elem_of_cons;
      [done | by eapply Hno] | intros Hno d Hin; apply (Hno d), elem_of_cons;
      by right]).
    split; [done |]. intros Hno. destruct (Hno delay). apply elem_of_cons. by left.
Qed.

Lemma timersSet_finish (err : option JsError) : timersSet (finish err) = 0%nat.
Proof. by destruct err. Qed.

Lemma timersSet_asyncMap_done {R : Type}
    (final : option JsError → list R → list Effect) (am : AsyncMap R)
    (i : nat) (err : option JsError) (v : R) :
  (∀ e rs, timersSet (final e rs) = 0%nat) →
  timersSet (asyncMap_done final am i err v).2 = 0%nat.
Proof.
  intros Hfinal. unfold asyncMap_done.
  destruct err; [| destruct (_ =? _)%nat]; cbn; by destruct (due am).
Qed.

Lemma timersSet_asyncMap_each {R : Type}
    (final : option JsError → list R → list Effect)
    (iterator : string → Called R) (am : AsyncMap R) (i : nat)
    (items : list string) :
  (∀ e rs, timersSet (final e rs) = 0%nat) →
  (∀ x, timersSet (match iterator x with Threw t | Went t _ => t end) = 0%nat) →
  timersSet (asyncMap_each final iterator am i items).2 = 0%nat.
Proof.
  intros Hfinal Hiter. revert am i.
  induction items as [|x items IH]; intros am i; [done |].
  cbn [asyncMap_each]. specialize (Hiter x).
  destruct (iterator x) as [t|t sync].
  - cbn. by rewrite timersSet_app, Hiter.
  - assert (∃ am1 t1,
              match sync with
              | Some (err, v) => asyncMap_done final am i err v
              | None => (am, [])
              end = (am1, t1) ∧ timersSet t1 = 0%nat) as (am1 & t1 & -> & Ht1).
    { destruct sync as [[err v]|]; [| by exists am, []].
      pose proof (timersSet_asyncMap_done final am i err v Hfinal) as Hdone.
      destruct (asyncMap_done final am i err v) as [am1 t1]. by exists am1, t1. }
    specialize (IH am1 (S i)).
    destruct (asyncMap_each final iterator am1 (S i) items) as [am2 t2].
    cbn in *. by rewrite !timersSet_app, Hiter, Ht1, IH.
Qed.

Lemma timersSet_asyncMap {R : Type}
    (final : option JsError → list R → list Effect)
    (items : list string) (iterator : string → Called R) :
  (∀ e rs, timersSet (final e rs) = 0%nat) →
  (∀ x, timersSet (match iterator x with Threw t | Went t _ => t end) = 0%nat) →
  timersSet (asyncMap final items iterator).2 = 0%nat.
Proof.
  intros Hfinal Hiter. unfold asyncMap. destruct items; [apply Hfinal |].
  by apply timersSet_asyncMap_each.
Qed.

Lemma timersSet_writeData (s : Session)
    (collections : gmap string (gmap string Doc)) (path : string) :
  timersSet (match writeData s collections path with
             | Threw t | Went t _ => t
             end) = 0%nat.
Proof.
  unfold writeData. destruct (pathToCollectionMapping s !! path); [| done].
  destruct (saveToFile (options s)); [| done].
  unfold writeJSON. rewrite timersSet_app, timersSet_logs by apply info_logs.
  done.
Qed.

(** The export sets no timer. *)
Lemma receivedLastDDPMessage_sets_no_timer (s : Session)
    (collections : gmap string (gmap string Doc)) :
  timersSet (receivedLastDDPMessage s collections).2 = 0%nat.
Proof.
  unfold receivedLastDDPMessage.
  destruct (discoverAll_trace s collections) as [_ Hlogs].
  destruct (discoverAll s collections) as [s1 t1]. cbn in Hlogs.
  pose proof (timersSet_asyncMap (λ err (_ : list ()), finish err)
                (Object_keys (pathToCollectionMapping s1))
                (writeData s1 collections)
                (λ e _, timersSet_finish e)
                (timersSet_writeData s1 collections)) as Hwrites.
  destruct (asyncMap _ _ _) as [am tw]. cbn in *.
  rewrite !timersSet_app, (timersSet_logs t1), Hwrites by done.
  destruct (_ =? _)%nat; [| done].
  by rewrite timersSet_logs by apply info_logs.
Qed.

(** Without a pending timer nothing calls the export any more. *)
Lemma eventLoop_idle (collections : gmap string (gmap string Doc))
    (s : Session) (events : list Event) :
  eventLoop collections s 0 events = [].
Proof.
  revert s. induction events as [|[now|now] events IH]; intros s;
    cbn [eventLoop]; [done | | apply IH].
  unfold onMessage. destruct (debug (options s)); cbn; apply IH.
Qed.

(** With one timer pending, the event loop calls the export where
    [detector] says so: the timer function uses up the timer and either
    calls the export, which sets no timer, or sets one timer again. *)
Lemma eventLoop_detector (collections : gmap string (gmap string Doc))
    (s : Session) (events : list Event) :
  eventLoop collections s 1 events = detector (options s) true events.
Proof.
  revert s. induction events as [|[now|now] events IH]; intros s;
    cbn [eventLoop detector]; [done | |].
  - unfold onMessage. destruct (debug (options s)); cbn; apply IH.
  - pose proof (timerCallback_choice s collections now) as Hchoice.
    destruct (timeoutExceeded (options s) now).
    + rewrite Hchoice, receivedLastDDPMessage_sets_no_timer.
      by rewrite eventLoop_idle, detector_disarmed.
    + rewrite Hchoice. cbn. apply IH.
Qed.

(** C3: in the event loop that starts with the timer of [waitForTimeout],
    the timer function calls [receivedLastDDPMessage] at most once; it
    only calls it in a check whose gap [now - lastMessageDate] is above
    [timeout]; the first check with such a gap calls it, and it is then
    the only call; in the scenario with messages at 0, 100 and 200 and a
    timeout of 150 there is no call up to 350. *)
Theorem C3_completion_detector (collections : gmap string (gmap string Doc))
    (s : Session) (events : list Event) :
  let calls :=
    eventLoop collections s (timersSet (waitForTimeout (options s))) events in
  (length calls ≤ 1)%nat
  ∧ (∀ now, now ∈ calls →
       ∃ pre post limit, events = pre ++ Timer now :: post
         ∧ timeout (options s) = Some limit
         ∧ limit < now - lastMessageDate (afterMessages (options s) pre))
  ∧ (∀ pre now post limit, events = pre ++ Timer now :: post →
       timeout (options s) = Some limit →
       (∀ p1 t p2, pre = p1 ++ Timer t :: p2 →
          t - lastMessageDate (afterMessages (options s) p1) ≤ limit) →
       limit < now - lastMessageDate (afterMessages (options s) pre) →
       calls = [now])
  ∧ (timeout (options s) = Some 150 → lastMessageDate (options s) = 0 →
     chronologicalFrom 0 events = true → messageTimes events = [100; 200] →
     ∀ now, now ∈ calls → 350 < now).
Proof.
  cbn [waitForTimeout timersSet]. rewrite eventLoop_detector.
  set (o := options s). cbn zeta.
  split; [apply detector_once |]. split; [| split].
  - intros now (pre & post & -> & Hgap)%detector_fired.
    apply timeoutExceeded_gap in Hgap as (limit & Hlimit & Hgap).
    rewrite timeout_afterMessages in Hlimit. by exists pre, post, limit.
  - intros pre now post limit -> Hlimit Hquiet Hgap.
    rewrite detector_app, detector_quiet.
    + cbn. assert (timeoutExceeded (afterMessages o pre) now = true) as ->.
      { apply timeoutExceeded_gap. exists limit.
        by rewrite timeout_afterMessages. }
      by rewrite detector_disarmed.
    + intros p1 t p2 Hpre. specialize (Hquiet p1 t p2 Hpre).
      destruct (timeoutExceeded (afterMessages o p1) t) eqn:Hex; [| done].
      apply timeoutExceeded_gap in Hex as (limit' & Hlimit' & Hex).
      rewrite timeout_afterMessages in Hlimit'. simplify_eq. lia.
  - intros. by eapply detector_idle_scenario.
Qed.

(** ** Subscriptions *)

Lemma subscriptionsCompleted_run (o : Options)
    (collections : gmap string (gmap string Doc)) (am : AsyncMap SubResult)
    (events : list (nat * string * option JsError)) :
  subscriptionsCompleted o collections am events
  = asyncMap_run (λ _ results, processSubscribtionResults o collections results)
      am ((λ ev, (ev.1.1, None, {| name := ev.1.2; err := ev.2 |})) <$> events).
Proof.
  revert am. induction events as [|[[i n] e] events IH]; intros am; [done |].
  cbn [subscriptionsCompleted fmap list_fmap asyncMap_run fst snd].
  unfold subscriptionCompleted, subscribeCallback.
  destruct (asyncMap_done _ am i None _) as [am1 t1]. by rewrite IH.
Qed.

(** After a successful handshake every requested collection is
    subscribed to, and [async.map] waits for all the answers. *)
Lemma connectCallback_subscribes (o : Options)
    (collections : gmap string (gmap string Doc)) :
  colls o ≠ [] →
  connectCallback o collections None
  = ({| results := replicate (length (colls o)) None;
        outstanding := length (colls o); due := true |},
     info o "DDP connection was successful" []
     ++ flat_map (subscribeToCollection o) (colls o)).
Proof.
  intros Hne. unfold connectCallback, asyncMap.
  destruct (colls o) as [|c cs] eqn:Hcolls; [done |].
  cbn [length Nat.eqb]. rewrite <-Hcolls.
  by rewrite (asyncMap_each_pending _ _ (subscribeToCollection o)).
Qed.

(** Whatever the answers of the server are, failures included, the
    answer that comes last, and no answer before it, calls
    [processSubscribtionResults]. *)
Lemma subscriptions_reach_wait (o : Options)
    (collections : gmap string (gmap string Doc))
    (events : list (nat * string * option JsError)) :
  colls o ≠ [] → length events = length (colls o) →
  (∃ results,
     (subscriptionsCompleted o collections
        (connectCallback o collections None).1 events).2
     = processSubscribtionResults o collections results)
  ∧ ∀ pre ev post, events = pre ++ ev :: post → post ≠ [] →
      (subscriptionsCompleted o collections
         (connectCallback o collections None).1 (pre ++ [ev])).2 = [].
Proof.
  intros Hne Hlen. rewrite connectCallback_subscribes by done. cbn [fst].
  destruct (asyncMap_run_all
              (λ _ results, processSubscribtionResults o collections results)
              {| results := replicate (length (colls o)) None;
                 outstanding := length (colls o); due := true |}
              ((λ ev, (ev.1.1, None, {| name := ev.1.2; err := ev.2 |}))
                 <$> events) eq_refl)
    as [Hfinal Hquiet].
  - apply Forall_fmap. by apply Forall_true.
  - by rewrite length_fmap.
  - destruct events; [| done]. by destruct (colls o).
  - split.
    + eexists. by rewrite subscriptionsCompleted_run, Hfinal.
    + intros pre ev post -> Hpost. rewrite subscriptionsCompleted_run.
      rewrite fmap_app. cbn [fmap list_fmap].
      apply (Hquiet _ _ ((λ ev, (ev.1.1, None,
                                 {| name := ev.1.2; err := ev.2 |})) <$> post)).
      * by rewrite fmap_app.
      * by destruct post.
Qed.

(** ** Path templating on a path with a percent sign *)

(** C4: a template with a percent sign that is not part of the marker
    goes through [util.format]; for the template [50%.json], which has
    no marker, the result is not the template but the template followed
    by a space and the collection name. *)
Theorem C4_percent_without_marker :
  indexOf "50%.json" "%s" = -1
  ∧ formatPath (Some "50%.json") "cats" = "50%.json cats".
Proof. split; reflexivity. Qed.

(** With that template as the only output path the script is in merge
    mode, yet the two collections get a path each. *)
Lemma percent_without_marker_splits (now : Z) :
  main (cmdline (Some ["50%.json"]) ["cats"; "dogs"] false false) now
  = Returns [DdpConnect]
      {| options :=
           set_lastMessageDate now
             (processed
                (set_colls ["cats"; "dogs"]
                   (cmdline (Some ["50%.json"]) ["cats"; "dogs"] false false)));
         pathToCollectionMapping :=
           {[ "50%.json cats" := ["cats"]; "50%.json dogs" := ["dogs"] ]} |}
  ∧ mergeCollections
      (processed
         (set_colls ["cats"; "dogs"]
            (cmdline (Some ["50%.json"]) ["cats"; "dogs"] false false)))
    = true.
Proof. split; reflexivity. Qed.

(** ** Verbose mode *)


End Properties.

(** * The properties on concrete runs *)

(** A closed key that is not the name of an inherited property. *)
Ltac ordinary_key :=
  cbv beta; refine (bool_decide_unpack _ _); vm_compute; exact I.

Lemma C7_ambiguous_outputs_fatal_witness :
  (∃ msg, processCliOptions (H := testRuntime)
            (set_colls ["cats"]
               (cmdline (Some ["a.json"; "b.json"; "c.json"]) ["cats"]
                  false false))
          = Exits [ConsoleError msg; ProcessExit 1])
  ∧ (false = false → false = false →
     ∃ t, main (H := testRuntime)
            (cmdline (Some ["a.json"; "b.json"; "c.json"]) ["cats"] false false)
            0
          = Exits (t ++ [ProcessExit 1])
          ∧ (∃ msg, ConsoleError msg ∈ t) ∧ DdpConnect ∉ t).
Proof.
  apply (C7_ambiguous_outputs_fatal (H := testRuntime)
           (cmdline (Some ["a.json"; "b.json"; "c.json"]) ["cats"] false false)
           ["a.json"; "b.json"; "c.json"] 0).
  - reflexivity.
  - cbn. lia.
  - right. cbn. lia.
Defined.

Lemma C5_split_destinations_witness :
  ∃ tmpl p,
    Some "col_%s.json" = Some tmpl
    ∧ p = formatPath (H := testRuntime) (Some tmpl) "dogs"
    ∧ generateFilename (H := testRuntime)
        (processed (H := testRuntime) fanOutOptions) "dogs" 1 = Some p
    ∧ "dogs" ∈ default [] (buildMapping (H := testRuntime)
                             (processed (H := testRuntime) fanOutOptions) !! p)
    ∧ ((∀ j d, colls fanOutOptions !! j = Some d → j ≠ 1%nat →
          generateFilename (H := testRuntime)
            (processed (H := testRuntime) fanOutOptions) d j ≠ Some p) →
       buildMapping (H := testRuntime)
         (processed (H := testRuntime) fanOutOptions) !! p = Some ["dogs"]).
Proof.
  apply (C5_split_destinations (H := testRuntime) fanOutOptions
           (processed (H := testRuntime) fanOutOptions) []
           ["col_%s.json"] 1 "dogs").
  - reflexivity.
  - left. vm_compute. discriminate.
  - reflexivity.
  - reflexivity.
  - intros j d Hd. destruct j as [|[|[|j]]]; vm_compute in Hd;
      try discriminate Hd; injection Hd as <-; ordinary_key.
Defined.

(** In split mode two collections that resolve to the same path share
    that path. *)
Lemma C5_shared_destination :
  length ["a.json"; "a.json"] = length (colls sharedPathOptions)
  ∧ output sharedPathOptions = Some ["a.json"; "a.json"]
  ∧ mergeCollections (processed (H := testRuntime) sharedPathOptions) = false
  ∧ buildMapping (H := testRuntime)
      (processed (H := testRuntime) sharedPathOptions) !! "a.json"
    = Some ["cats"; "dogs"].
Proof. repeat split; reflexivity. Qed.


Lemma C9_payload_witness :
  ∃ buffer : gmap string (gmap string string),
    writeData (H := testRuntime) exampleSession exampleCollections "out.json"
    = (if saveToFile (options exampleSession)
       then Went (writeJSON (H := testRuntime) (options exampleSession)
                    "out.json" buffer (compress (options exampleSession))) None
       else Went (writeLog (H := testRuntime) "out.json" buffer
                    (compress (options exampleSession))) (Some (None, ())))
    ∧ FsWriteFile "out.json"
        (stringify (H := testRuntime) buffer (compress (options exampleSession)))
      ∈ writeJSON (H := testRuntime) (options exampleSession) "out.json" buffer
          (compress (options exampleSession))
    ∧ (∀ c, buffer !! c = if decide (c ∈ ["cats"; "ghosts"])
                          then exampleCollections !! c else None)
    ∧ (∀ c records, ["cats"; "ghosts"] = [c] →
         exampleCollections !! c = Some records → buffer = {[ c := records ]}).
Proof.
  apply (C9_payload (H := testRuntime) exampleSession exampleCollections
           "out.json" ["cats"; "ghosts"]).
  reflexivity.
Defined.



Lemma C3_completion_detector_witness :
  timeout (options idleSession) = Some 150
  ∧ eventLoop (H := testRuntime) exampleCollections idleSession
      (timersSet (waitForTimeout (options idleSession))) idleEvents = [450].
Proof.
  split; [reflexivity |].
  apply (proj1 (proj2 (proj2 (C3_completion_detector (H := testRuntime)
                                exampleCollections idleSession idleEvents)))
           [Message 100; Timer 150; Message 200; Timer 300] 450 [] 150).
  - reflexivity.
  - reflexivity.
  - intros p1 t p2 Hsplit.
    repeat (destruct p1 as [|? p1]; simplify_eq/=; try lia).
  - cbn. lia.
Defined.

Lemma C1_connect_failure_witness :
  verbose verboseOptions = true
  ∧ (connectCallback (H := testRuntime) verboseOptions ∅
       (Some {| message := "ECONNREFUSED" |})).2
    = [ConsoleLog "Error: DDP connection failed"].
Proof.
  split; [reflexivity |].
  apply (proj1 (proj2 (C1_connect_failure (H := testRuntime) verboseOptions ∅
                         {| message := "ECONNREFUSED" |}))).
  reflexivity.
Defined.

(** Without [--verbose] a failed handshake prints nothing and does not
    end the process. *)
Lemma C1_silent_return :
  (connectCallback (H := testRuntime)
     (set_colls ["cats"] (cmdline None ["cats"] false false)) ∅
     (Some {| message := "ECONNREFUSED" |})).2 = [].
Proof. reflexivity. Qed.

Lemma C8_subscription_failure_not_fatal_witness :
  ConsoleError ("Error: Could not subscribe to collection " +:+ dq +:+ "cats"
                +:+ dq +:+ ":" +:+ nl +:+ "403")
  ∈ processSubscribtionResults (H := testRuntime) verboseOptions
      exampleCollections exampleResults.
Proof.
  apply (proj1 (proj2 (C8_subscription_failure_not_fatal (H := testRuntime)
                         verboseOptions exampleCollections exampleResults))
           {| name := "cats"; err := Some {| message := "403" |} |}
           {| message := "403" |}).
  - apply elem_of_cons. by left.
  - reflexivity.
Defined.



(** * Further properties of the script *)

Section Coverage.
Context `{Runtime}.

(** ** Command line options *)

Lemma unknown_protocol_text (p : string) :
  util_format ("Error: Unknown protocol " +:+ dq +:+ "%s" +:+ dq) [p]
  = "Error: Unknown protocol " +:+ dq +:+ p +:+ dq.
Proof.
  unfold util_format.
  change ("Error: Unknown protocol " +:+ dq +:+ "%s" +:+ dq)
    with (("Error: Unknown protocol " +:+ dq) +:+ "%s" +:+ dq).
  rewrite format_go_marker by reflexivity.
  cbn. by rewrite !append_empty_r, !append_assoc.
Qed.

(** A URL whose protocol is neither [ws:] nor [wss:] ends the process
    with status 1 and a message that quotes the protocol, whatever the
    other options are. *)
Theorem unknown_protocol_fatal (o : Options) (u : string) :
  url o = Some u → u ≠ "" →
  protocol (url_parse u) ≠ Some "wss:" → protocol (url_parse u) ≠ Some "ws:" →
  processCliOptions o
  = Exits [ConsoleError ("Error: Unknown protocol " +:+ dq
                         +:+ String_of (protocol (url_parse u)) +:+ dq);
           ProcessExit 1].
Proof.
  intros Hurl Hu Hwss Hws. unfold processCliOptions, applyUrl.
  rewrite Hurl. cbn [string_truthy default from_option id].
  apply String.eqb_neq in Hu. rewrite Hu. cbn [negb].
  rewrite !bool_decide_eq_false_2 by done. cbn [negb andb].
  unfold error. by rewrite unknown_protocol_text.
Qed.

Lemma processOutput_fields (o o' : Options) (t : list Effect) :
  processOutput o = Returns t o' →
  t = [] ∧ host o' = host o ∧ port o' = port o ∧ ssl o' = ssl o
  ∧ timeout o' = timeout o ∧ ddpv o' = ddpv o ∧ colls o' = colls o
  ∧ all o' = all o ∧ verbose o' = verbose o ∧ output o' = output o.
Proof.
  unfold processOutput. destruct o.
  cbn -[indexOf Nat.eqb Nat.ltb length].
  repeat case_match; intros; simplify_eq; done.
Qed.

Lemma setDefaults_connection (o : Options) :
  host (setDefaults o)
  = (if string_truthy (host o) then host o else Some "localhost")
  ∧ port (setDefaults o)
    = (if port_truthy (port o) then port o
       else PortNumber (if ssl o then 443 else 80))
  ∧ ssl (setDefaults o) = ssl o
  ∧ ddpv (setDefaults o)
    = (if string_truthy (ddpv o) then ddpv o else Some "1")
  ∧ timeout (setDefaults o)
    = Some (match timeout o with
            | Some n => if n =? 0 then if all o then 800 else 0 else n
            | None => if all o then 800 else 0
            end).
Proof.
  unfold setDefaults.
  destruct o as [? h p sl ? al tmo ? dv ? ? ? ? ? ? ? ? ? ? ?]. cbn.
  destruct (string_truthy h); cbn; destruct (port_truthy p); cbn;
    destruct sl, al; cbn; destruct tmo as [n|]; cbn;
    try match goal with
        | |- context [?n =? 0] => destruct (n =? 0); cbn
        end;
    by destruct (string_truthy dv).
Qed.

(** With [--url] the host, the port and the SSL flag come from the URL;
    what [--host], [--port] and [--ssl] said is dropped.  A URL without
    a port gets 443 for [wss:] and 80 for [ws:], a URL without a host
    name gets [localhost]. *)
Theorem url_overrides_connection (o o' : Options) (t : list Effect)
    (u : string) :
  url o = Some u → u ≠ "" → processCliOptions o = Returns t o' →
  ssl o' = bool_decide (protocol (url_parse u) = Some "wss:")
  ∧ host o' = (if string_truthy (hostname (url_parse u))
               then hostname (url_parse u) else Some "localhost")
  ∧ port o' = (if string_truthy (u_port (url_parse u))
               then PortString (default "" (u_port (url_parse u)))
               else PortNumber (if ssl o' then 443 else 80)).
Proof.
  intros Hurl Hu. unfold processCliOptions, applyUrl.
  rewrite Hurl. cbn [string_truthy default from_option id].
  apply String.eqb_neq in Hu. rewrite Hu. cbn [negb].
  destruct (_ && _); [done |].
  intros (_ & Hhost & Hport & Hssl & _)%processOutput_fields.
  rewrite Hhost, Hport, Hssl.
  match goal with
  | |- context [setDefaults ?o1] =>
      destruct (setDefaults_connection o1) as (-> & -> & -> & _)
  end.
  destruct o. cbn.
  destruct (u_port (url_parse u)) as [p|]; cbn; [| done].
  by destruct (String.eqb p "").
Qed.

(** Without [--url] the options keep the host, the port and the SSL
    flag of the command line; a missing host becomes [localhost], a
    missing port or the port 0 becomes 443 with [--ssl] and 80 without,
    a missing protocol version becomes [1]. *)
Theorem connection_defaults (o o' : Options) (t : list Effect) :
  string_truthy (url o) = false → processCliOptions o = Returns t o' →
  ssl o' = ssl o
  ∧ host o' = (if string_truthy (host o) then host o else Some "localhost")
  ∧ port o' = (if port_truthy (port o) then port o
               else PortNumber (if ssl o then 443 else 80))
  ∧ ddpv o' = (if string_truthy (ddpv o) then ddpv o else Some "1").
Proof.
  intros Hurl. unfold processCliOptions, applyUrl. rewrite Hurl.
  intros (_ & Hhost & Hport & Hssl & _ & Hddpv & _)%processOutput_fields.
  rewrite Hhost, Hport, Hssl, Hddpv.
  by destruct (setDefaults_connection o) as (-> & -> & -> & -> & _).
Qed.

Lemma applyUrl_flags (o o1 : Options) (t : list Effect) :
  applyUrl o = Returns t o1 → timeout o1 = timeout o ∧ all o1 = all o.
Proof.
  unfold applyUrl. destruct o; cbn.
  repeat case_match; intros; simplify_eq; done.
Qed.

(** After option processing the timeout is always set: a value other
    than 0 is kept; without a value, and also for the value 0, it is 800
    with [--all] and 0 without. *)
Theorem timeout_default (o o' : Options) (t : list Effect) :
  processCliOptions o = Returns t o' →
  timeout o'
  = Some (match timeout o with
          | Some n => if n =? 0 then if all o then 800 else 0 else n
          | None => if all o then 800 else 0
          end).
Proof.
  unfold processCliOptions.
  destruct (applyUrl o) as [|t1 o1] eqn:Hurl; [done |].
  apply applyUrl_flags in Hurl as [Htmo Hall].
  intros (_ & _ & _ & _ & -> & _)%processOutput_fields.
  destruct (setDefaults_connection o1) as (_ & _ & _ & _ & ->).
  by rewrite Htmo, Hall.
Qed.

(** ** Accepted output options *)

Lemma processOutput_accepts (o : Options) :
  (∃ o', processOutput o = Returns [] o')
  ↔ ¬ ((1 < length (default [] (output o)))%nat
       ∧ (indexOf (default "" (default [] (output o) !! 0%nat)) "%s" ≠ -1
          ∨ length (default [] (output o)) ≠ length (colls o))).
Proof.
  unfold processOutput. destruct o as [? ? ? ? out ? ? ? ? ? ? ? ? ? ? cs ? ? ? ?].
  cbn -[indexOf Nat.eqb Nat.ltb length].
  destruct (default [] out) as [|O0 [|O1 Or]]; cbn -[indexOf Nat.eqb].
  - split; [intros _ [? _]; lia | by eexists].
  - split; [intros _ [? _]; lia |]. intros _.
    destruct (indexOf O0 "%s" =? -1); cbn -[Nat.eqb]; [| by eexists].
    destruct (1 =? length cs)%nat; by eexists.
  - destruct (Z.eqb_spec (indexOf O0 "%s") (-1)) as [Hno|Hmark]; cbn -[Nat.eqb].
    + destruct (Nat.eqb_spec (S (S (length Or))) (length cs)) as [Hlen|Hlen].
      * split; [| by eexists]. intros _ [_ [? | ?]]; done.
      * split; [by intros [? ?] |]. intros Hnot. exfalso. apply Hnot.
        split; [lia | by right].
    + split; [by intros [? ?] |]. intros Hnot. exfalso. apply Hnot.
      split; [lia | by left].
Qed.

(** Option processing without [--url] goes through exactly when the
    output paths are not ambiguous: at most one path, or as many paths
    as collections with no marker in the first. *)
Theorem fatal_only_when_ambiguous (o : Options) :
  string_truthy (url o) = false →
  (∃ o', processCliOptions o = Returns [] o')
  ↔ ¬ ((1 < length (default [] (output o)))%nat
       ∧ (indexOf (default "" (default [] (output o) !! 0%nat)) "%s" ≠ -1
          ∨ length (default [] (output o)) ≠ length (colls o))).
Proof.
  intros Hurl. unfold processCliOptions, applyUrl. rewrite Hurl.
  rewrite processOutput_accepts.
  by destruct (setDefaults_fields o) as (-> & -> & _).
Qed.

(** ** Merged destinations *)

Lemma assigned_all (g : string → nat → option string) (k : string)
    (l : list string) (i : nat) :
  (∀ j c, l !! j = Some c → String_of (g c (i + j)%nat) = k) →
  assigned g k i l = l.
Proof.
  revert i. induction l as [|c l IH]; intros i Hall; [done |].
  cbn [assigned]. rewrite decide_True.
  - cbn. f_equal. apply IH. intros j d Hd. rewrite Nat.add_succ_comm.
    by apply (Hall (S j)).
  - specialize (Hall 0%nat c eq_refl). by rewrite Nat.add_0_r in Hall.
Qed.

Lemma assigned_inv (g : string → nat → option string) (k : string)
    (l : list string) (i : nat) (c : string) :
  c ∈ assigned g k i l →
  ∃ j, l !! j = Some c ∧ String_of (g c (i + j)%nat) = k.
Proof.
  revert i. induction l as [|d l IH]; intros i; cbn [assigned].
  - by intros ?%elem_of_nil.
  - intros [Hin|Hin]%elem_of_app.
    + destruct (decide (String_of (g d i) = k)) as [Hk|]; [| by apply elem_of_nil in Hin].
      apply list_elem_of_singleton in Hin as ->. exists 0%nat.
      by rewrite Nat.add_0_r.
    + destruct (IH _ Hin) as (j & Hj & Hk). exists (S j).
      by rewrite <-Nat.add_succ_comm.
Qed.

(** When every collection is sent to the same key, the mapping is that
    one key with all the collections in their order. *)
Lemma buildMapping_one_key (o : Options) (k : string) :
  (∀ i c, colls o !! i = Some c → String_of (generateFilename o c i) = k) →
  buildMapping o = match colls o with
                   | [] => ∅
                   | _ => {[ k := colls o ]}
                   end.
Proof.
  intros Hkey. apply map_eq. intros k'. unfold buildMapping, reduce.
  rewrite reduceFrom_lookup, lookup_empty.
  destruct (decide (k' = k)) as [->|Hne].
  - rewrite assigned_all by done.
    destruct (colls o); [done |]. by rewrite lookup_singleton_eq.
  - rewrite assigned_none.
    + destruct (colls o); [done |]. by rewrite lookup_singleton_ne.
    + intros j d Hd. cbn. by rewrite (Hkey j d Hd).
Qed.

(** Without an output path everything goes to the console: no file is
    written and the mapping has the one console destination with all
    requested collections in the order of the command line. *)
Theorem console_merges_all (o o' : Options) (t : list Effect) :
  default [] (output o) = [] → processCliOptions o = Returns t o' →
  saveToFile o' = false
  ∧ buildMapping o' = match colls o with
                      | [] => ∅
                      | _ => {[ "null" := colls o ]}
                      end.
Proof.
  intros Hout. unfold processCliOptions.
  destruct (applyUrl o) as [|t1 o1] eqn:Hurl; [done |].
  apply applyUrl_returns in Hurl as (Hout1 & Hcolls1 & _).
  destruct (setDefaults_fields o1) as (Hout2 & Hcolls2 & _).
  rewrite <-Hout1, <-Hout2 in Hout. rewrite <-Hcolls1, <-Hcolls2.
  destruct (setDefaults o1) as [? ? ? ? out ? ? ? ? ? ? ? ? ? ? cs ? ? ? ?].
  unfold processOutput. cbn in Hout |- *. rewrite Hout. cbn.
  intros [= <- <-]. split; [done |].
  by apply buildMapping_one_key.
Qed.

Lemma indexOfFrom_marker_percent (f : string) (i : Z) :
  0 ≤ i → indexOfFrom "%" f i = -1 → indexOfFrom "%s" f i = -1.
Proof.
  revert i. induction f as [|c f IH]; intros i Hi; [done |].
  cbn [indexOfFrom String.prefix].
  destruct (ascii_dec "%" c); [rewrite prefix_empty; lia |].
  apply IH. lia.
Qed.

(** A single output path without a percent sign, other than the name
    of an inherited property, receives all requested collections, in the
    order of the command line. *)
Theorem single_file_merges_all (o o' : Options) (t : list Effect) (f : string) :
  output o = Some [f] → f ≠ "" → indexOf f "%" = -1 →
  f ∉ Object_prototype_keys →
  processCliOptions o = Returns t o' →
  saveToFile o' = true
  ∧ buildMapping o' = match colls o with
                      | [] => ∅
                      | _ => {[ f := colls o ]}
                      end.
Proof.
  intros Hout Hf Hplain _. unfold processCliOptions.
  destruct (applyUrl o) as [|t1 o1] eqn:Hurl; [done |].
  apply applyUrl_returns in Hurl as (Hout1 & Hcolls1 & _).
  destruct (setDefaults_fields o1) as (Hout2 & Hcolls2 & _).
  rewrite <-Hout1, <-Hout2 in Hout. rewrite <-Hcolls1, <-Hcolls2.
  pose proof (indexOfFrom_marker_percent f 0 ltac:(done) Hplain) as Hnomark.
  fold (indexOf f "%s") in Hnomark.
  destruct (setDefaults o1) as [? ? ? ? out ? ? ? ? ? ? ? ? ? ? cs ? ? ? ?].
  unfold processOutput. cbn in Hout |- *. subst out.
  cbn -[indexOf Nat.eqb]. rewrite Hnomark. cbn -[Nat.eqb].
  destruct (Nat.eqb_spec 1 (length cs)) as [Hone|Hmany];
    intros [= <- <-]; (split; [done |]); apply buildMapping_one_key; cbn.
  - intros i c Hc. unfold generateFilename. cbn.
    destruct cs as [|c0 [|c1 cs]]; try done. destruct i; [| done]. cbn.
    by rewrite formatPath_no_percent.
  - intros i c Hc. unfold generateFilename. cbn.
    by rewrite formatPath_no_percent.
Qed.

(** ** Templates with one marker *)

Lemma append_length (s t : string) :
  String.length (s +:+ t) = (String.length s + String.length t)%nat.
Proof.
  induction s as [|c s IH]; [done |]. rewrite append_cons. cbn. by rewrite IH.
Qed.

Lemma append_inj_r (s1 s2 t : string) : s1 +:+ t = s2 +:+ t → s1 = s2.
Proof.
  revert s2. induction s1 as [|c s1 IH]; intros [|d s2] Heq; [done | | |].
  - apply (f_equal String.length) in Heq.
    rewrite append_empty_l, append_cons in Heq. cbn [String.length] in Heq.
    rewrite append_length in Heq. lia.
  - apply (f_equal String.length) in Heq.
    rewrite append_empty_l, append_cons in Heq. cbn [String.length] in Heq.
    rewrite append_length in Heq. lia.
  - rewrite !append_cons in Heq. injection Heq as -> Heq. f_equal. by apply IH.
Qed.

Lemma indexOfFrom_marker_found (pre post : string) (i : Z) :
  0 ≤ i → indexOfFrom "%s" (pre +:+ "%s" +:+ post) i ≠ -1.
Proof.
  revert i. induction pre as [|c pre IH]; intros i Hi.
  - rewrite append_empty_l, !append_cons, append_empty_l.
    cbn [indexOfFrom String.prefix].
    destruct (ascii_dec "%" "%"); [| done].
    destruct (ascii_dec "s" "s"); [| done]. rewrite prefix_empty. lia.
  - rewrite append_cons. cbn [indexOfFrom].
    destruct (String.prefix "%s" _); [lia |]. apply IH. lia.
Qed.

(** A template with one marker and no other percent sign gives the
    template with the name in the place of the marker. *)
Lemma formatPath_single_marker (pre post n : string) :
  indexOf pre "%" = -1 → indexOf post "%" = -1 →
  formatPath (Some (pre +:+ "%s" +:+ post)) n = pre +:+ n +:+ post.
Proof.
  intros Hpre Hpost. rewrite formatPath_marker_first by done.
  unfold util_format. rewrite (format_go_plain post [] 0) by done.
  cbn. by rewrite append_empty_r.
Qed.

(** Template fan-out: with one output path that has one marker and no
    other percent sign, and requested collections that are pairwise
    different and none of which resolves to the name of an inherited
    property, every collection has a file of its own, named by the
    template with the collection name in the place of the marker, and
    the mapping has no other path. *)
Theorem template_fan_out (o o' : Options) (t : list Effect)
    (pre post : string) :
  output o = Some [pre +:+ "%s" +:+ post] →
  indexOf pre "%" = -1 → indexOf post "%" = -1 → NoDup (colls o) →
  (∀ c, c ∈ colls o → pre +:+ c +:+ post ∉ Object_prototype_keys) →
  processCliOptions o = Returns t o' →
  (∀ c, c ∈ colls o → buildMapping o' !! (pre +:+ c +:+ post) = Some [c])
  ∧ (∀ k, is_Some (buildMapping o' !! k) →
       ∃ c, c ∈ colls o ∧ k = pre +:+ c +:+ post).
Proof.
  intros Hout Hpre Hpost Hnodup _ Hret. unfold processCliOptions in Hret.
  destruct (applyUrl o) as [|t1 o1] eqn:Hurl; [done |].
  apply applyUrl_returns in Hurl as (Hout1 & Hcolls1 & _).
  destruct (setDefaults_fields o1) as (Hout2 & Hcolls2 & _).
  assert (output (setDefaults o1) = Some [pre +:+ "%s" +:+ post]) as Hout'
    by congruence.
  assert (colls (setDefaults o1) = colls o) as Hcs by congruence.
  assert (indexOf (default "" ([pre +:+ "%s" +:+ post] !! 0%nat)) "%s" ≠ -1)
    as Hmark by (by apply indexOfFrom_marker_found).
  assert (∀ i c, colls o !! i = Some c →
            colls o' = colls o
            ∧ generateFilename o' c i = Some (pre +:+ c +:+ post)) as Hgen.
  { intros i c Hc. rewrite <-Hcs in Hc.
    destruct (processOutput_split _ _ _ _ Hout' Hret (or_introl Hmark) i c Hc)
      as (Hcolls & Hsave & Hmerge & tmpl & Hfile & Htmpl).
    rewrite decide_False in Htmpl by done. injection Htmpl as <-.
    split; [congruence |]. unfold generateFilename.
    by rewrite Hsave, Hmerge, Hfile, formatPath_single_marker. }
  assert (colls o' = colls o) as Hcolls'.
  { destruct (colls o) as [|c0 cs] eqn:Hc0.
    - destruct (processOutput_fields _ _ _ Hret) as (_ & _ & _ & _ & _ & _ & -> & _).
      congruence.
    - by destruct (Hgen 0%nat c0 eq_refl). }
  unfold buildMapping, reduce. rewrite Hcolls'. split.
  - intros c [i Hi]%list_elem_of_lookup.
    rewrite reduceFrom_lookup, lookup_empty.
    rewrite (assigned_alone _ _ _ 0%nat i c); [done | done | |].
    + cbn. by destruct (Hgen i c Hi) as [_ ->].
    + intros j d Hd Hne. cbn. destruct (Hgen j d Hd) as [_ ->]. cbn.
      intros Heq. apply String.app_inj, append_inj_r in Heq. subst d.
      apply Hne. by eapply NoDup_lookup.
  - intros k. rewrite reduceFrom_lookup, lookup_empty.
    destruct (assigned _ k 0 (colls o)) as [|c cs] eqn:Hassigned;
      [by intros [? ?] |]. intros _.
    assert (c ∈ assigned (generateFilename o') k 0 (colls o)) as Hin
      by (rewrite Hassigned; apply elem_of_cons; by left).
    apply assigned_inv in Hin as (j & Hj & Hk). cbn in Hk.
    destruct (Hgen j c Hj) as [_ Hgenc]. rewrite Hgenc in Hk. cbn in Hk.
    exists c. split; [by eapply list_elem_of_lookup_2 | done].
Qed.

(** ** Start-up *)

Lemma processCliOptions_returns (o o' : Options) (t : list Effect) :
  processCliOptions o = Returns t o' →
  t = [] ∧ colls o' = colls o ∧ all o' = all o ∧ verbose o' = verbose o
  ∧ is_Some (timeout o') ∧ string_truthy (host o') = true
  ∧ port_truthy (port o') = true ∧ string_truthy (ddpv o') = true.
Proof.
  unfold processCliOptions.
  destruct (applyUrl o) as [|t1 o1] eqn:Hurl; [done |].
  apply applyUrl_returns in Hurl as (_ & Hcolls & Hall & Hverbose).
  destruct (setDefaults_fields o1) as (_ & Hcolls' & Hall' & Hverbose').
  intros (-> & -> & -> & _ & -> & -> & -> & -> & -> & _)%processOutput_fields.
  destruct (setDefaults_connection o1) as (-> & -> & _ & -> & ->).
  repeat split; try congruence.
  - by eexists.
  - by destruct (string_truthy (host o1)) eqn:?.
  - destruct (port_truthy (port o1)) eqn:?; [done |]. by destruct (ssl o1).
  - by destruct (string_truthy (ddpv o1)) eqn:?.
Qed.

(** The script connects only with a complete configuration: it has
    printed no error, the requested collections are the remaining
    arguments, there is a collection or [--all], and the timeout, the
    host, the port and the protocol version are set; the call of
    [ddp.connect] is the last thing it does. *)
Theorem main_session (o : Options) (now : Z) (t : list Effect) (s : Session) :
  main o now = Returns t s →
  colls (options s) = argv_remain o
  ∧ (argv_remain o ≠ [] ∨ all o = true)
  ∧ lastMessageDate (options s) = now
  ∧ is_Some (timeout (options s))
  ∧ string_truthy (host (options s)) = true
  ∧ port_truthy (port (options s)) = true
  ∧ string_truthy (ddpv (options s)) = true
  ∧ last t = Some DdpConnect
  ∧ (∀ msg, ConsoleError msg ∉ t)
  ∧ (∀ code, ProcessExit code ∉ t).
Proof.
  unfold main. destruct (version o); [done |]. destruct (help o); [done |].
  destruct (_ && _) eqn:Hempty; [done |].
  destruct (processCliOptions _) as [|t1 o1] eqn:Hp; [done |].
  apply processCliOptions_returns in Hp
    as (-> & Hcolls & Hall & _ & Htmo & Hhost & Hport & Hddpv).
  rewrite colls_set_colls in Hcolls, Hempty.
  intros [= <- <-]. cbn [options app].
  assert (Forall (λ eff, ∃ text, eff = ConsoleLog text)
            (if verbose o1 then printConnectionInfo o1 else [])) as Hlogs.
  { destruct (verbose o1); [apply info_logs | constructor]. }
  rewrite Forall_forall in Hlogs.
  destruct o1. cbn in *. repeat split; try done.
  - apply andb_false_iff in Hempty as [Hlen|Hnall].
    + left. intros Hnil. by rewrite Hnil in Hlen.
    + right. destruct o. cbn in *. by destruct all1.
  - by rewrite last_snoc.
  - intros msg [Hin|Hin]%elem_of_app.
    + by destruct (Hlogs _ Hin).
    + by apply list_elem_of_singleton in Hin.
  - intros code [Hin|Hin]%elem_of_app.
    + by destruct (Hlogs _ Hin).
    + by apply list_elem_of_singleton in Hin.
Qed.

(** ** Discovery in capture-all mode *)

Lemma occurrences_elem (c : string) (l : list string) :
  c ∈ l → (0 < occurrences c l)%nat.
Proof.
  induction l as [|d l IH]; [by intros ?%elem_of_nil |].
  change (d :: l) with ([d] ++ l). rewrite occurrences_app, occurrences_single.
  intros [->|Hin]%elem_of_cons; [rewrite decide_True by done; lia |].
  specialize (IH Hin). lia.
Qed.

(** The loop over the names of the server's collections: a name is
    among [options.colls] afterwards exactly when it was before or is one
    of the names; the names that were there keep their number of
    occurrences, a new name occurs once; the number of entries of a
    name in the mapping follows its number of occurrences. *)
Lemma foldl_discover_colls (collections : gmap string (gmap string Doc))
    (names : list string) (s : Session) (t : list Effect) (c : string) :
  let s' := (foldl (discover collections) (s, t) names).1 in
  (c ∈ colls (options s') ↔ c ∈ colls (options s) ∨ c ∈ names)
  ∧ occurrences c (colls (options s'))
    = (if decide (c ∈ colls (options s)) then occurrences c (colls (options s))
       else if decide (c ∈ names) then 1 else 0)%nat
  ∧ (entriesOf c (pathToCollectionMapping s)
     = occurrences c (colls (options s)) →
     entriesOf c (pathToCollectionMapping s')
     = occurrences c (colls (options s'))).
Proof.
  cbn zeta. revert s t. induction names as [|n names IH]; intros s t.
  - cbn. split; [| split; [| done]].
    + split; [by left | by intros [?|?%elem_of_nil]].
    + destruct (decide (c ∈ colls (options s))) as [|Hnot]; [done |].
      rewrite decide_False by apply not_elem_of_nil.
      by apply occurrences_absent.
  - cbn [foldl]. destruct (decide (n ∈ colls (options s))) as [Hn|Hn].
    + rewrite discover_known by done.
      destruct (IH s t) as (Hmem & Hocc & Hent). split; [| split; [| done]].
      * rewrite Hmem, elem_of_cons. split; [tauto |].
        intros [?|[->|?]]; tauto.
      * rewrite Hocc. destruct (decide (c ∈ colls (options s))); [done |].
        destruct (decide (c = n)) as [->|Hne]; [done |].
        destruct (decide (c ∈ names)) as [Hin|Hnin].
        -- rewrite decide_True; [done | apply elem_of_cons; by right].
        -- rewrite decide_False; [done |]. rewrite not_elem_of_cons. by split.
    + rewrite discover_new by done.
      match goal with
      | |- context [foldl _ (?s1, ?t1) names] =>
          destruct (IH s1 t1) as (Hmem & Hocc & Hent)
      end.
      cbn [options pathToCollectionMapping] in Hmem, Hocc, Hent.
      rewrite colls_set_colls in Hmem, Hocc, Hent.
      split; [| split].
      * rewrite Hmem, elem_of_app, list_elem_of_singleton, elem_of_cons. tauto.
      * rewrite Hocc. rewrite occurrences_app, occurrences_single.
        destruct (decide (c = n)) as [->|Hne].
        -- rewrite (decide_True (P := n = n)) by done.
           rewrite decide_True
             by (apply elem_of_app; right; by apply list_elem_of_singleton).
           rewrite decide_False by done.
           rewrite decide_True by (apply elem_of_cons; by left).
           rewrite occurrences_absent by done. lia.
        -- rewrite (decide_False (P := n = c)) by done.
           destruct (decide (c ∈ colls (options s))) as [Hc|Hc].
           ++ rewrite decide_True by (apply elem_of_app; by left). lia.
           ++ rewrite decide_False.
              2:{ rewrite elem_of_app, list_elem_of_singleton. tauto. }
              destruct (decide (c ∈ names)) as [Hin|Hnin].
              ** rewrite decide_True; [done | apply elem_of_cons; by right].
              ** rewrite decide_False; [done |].
                 rewrite not_elem_of_cons. by split.
      * intros Hinv. apply Hent.
        rewrite entriesOf_add, Hinv, occurrences_app, occurrences_single.
        done.
Qed.

Lemma discoverAll_fold (s : Session) (collections : gmap string (gmap string Doc)) :
  all (options s) = true →
  discoverAll s collections
  = foldl (discover collections) (s, []) (Object_keys collections).
Proof.
  intros Hall. unfold discoverAll. rewrite Hall. cbn [andb].
  by destruct (Object_keys collections).
Qed.

(** Capture-all, when no collection that the server has sent without a
    request resolves to the name of an inherited property: after the
    discovery a name is among [options.colls] exactly when it was
    requested or the server has sent a collection of that name; a
    collection that was requested keeps its entries in the mapping, and
    a collection that the server sent without a request has exactly one
    entry. *)
Theorem capture_all_discovers (s : Session)
    (collections : gmap string (gmap string Doc)) (c : string) :
  all (options s) = true →
  entriesOf c (pathToCollectionMapping s) = occurrences c (colls (options s)) →
  (∀ n, is_Some (collections !! n) → n ∉ colls (options s) →
     String_of (generateFilename (options s) n 0) ∉ Object_prototype_keys) →
  (c ∈ colls (options (discoverAll s collections).1)
   ↔ c ∈ colls (options s) ∨ is_Some (collections !! c))
  ∧ (c ∈ colls (options s) →
     entriesOf c (pathToCollectionMapping (discoverAll s collections).1)
     = entriesOf c (pathToCollectionMapping s))
  ∧ (c ∉ colls (options s) → is_Some (collections !! c) →
     entriesOf c (pathToCollectionMapping (discoverAll s collections).1)
     = 1%nat).
Proof.
  intros Hall Hinv _. rewrite discoverAll_fold by done.
  destruct (foldl_discover_colls collections (Object_keys collections) s [] c)
    as (Hmem & Hocc & Hent).
  specialize (Hent Hinv). split; [| split].
  - by rewrite Hmem, Object_keys_elem.
  - intros Hc. rewrite Hent, Hocc, Hinv. by rewrite decide_True.
  - intros Hc Hsent. rewrite Hent, Hocc. rewrite decide_False by done.
    rewrite decide_True; [done |]. by apply Object_keys_elem.
Qed.

(** Without [--all] the export leaves the requested collections and
    the mapping as they are, whatever the server has sent. *)
Theorem no_discovery_without_all (s : Session)
    (collections : gmap string (gmap string Doc)) :
  all (options s) = false →
  (receivedLastDDPMessage s collections).1.1 = s.
Proof.
  intros Hall. unfold receivedLastDDPMessage, discoverAll. rewrite Hall.
  cbn [andb]. by destruct (asyncMap _ _ _).
Qed.

(** ** Export to the console *)

(** On the console the mapping is the one console destination with all
    of [options.colls], and the discovery keeps it so. *)
Lemma foldl_discover_console (collections : gmap string (gmap string Doc))
    (names : list string) (s : Session) (t : list Effect) :
  saveToFile (options s) = false →
  pathToCollectionMapping s
  = match colls (options s) with
    | [] => ∅
    | _ => {[ "null" := colls (options s) ]}
    end →
  let s' := (foldl (discover collections) (s, t) names).1 in
  compress (options s') = compress (options s)
  ∧ pathToCollectionMapping s'
    = match colls (options s') with
      | [] => ∅
      | _ => {[ "null" := colls (options s') ]}
      end.
Proof.
  cbn zeta. revert s t. induction names as [|n names IH]; intros s t Hsave Hmap;
    [done |].
  cbn [foldl]. destruct (decide (n ∈ colls (options s))) as [Hn|Hn].
  - rewrite discover_known by done. by apply IH.
  - rewrite discover_new by done.
    match goal with
    | |- context [foldl _ (?s1, ?t1) names] =>
        destruct (IH s1 t1) as [Hcompress Hmap']
    end.
    + cbn. by destruct (options s).
    + cbn [options pathToCollectionMapping]. rewrite colls_set_colls, Hmap.
      unfold generateFilename, addPathToMapping. rewrite Hsave. cbn.
      destruct (colls (options s)) as [|c0 cs]; cbn.
      * by rewrite lookup_empty, insert_empty.
      * by rewrite lookup_singleton_eq, insert_singleton_eq.
    + split; [| done]. rewrite Hcompress. cbn. by destruct (options s).
Qed.

(** On the console the export prints one document and closes the
    connection in the same turn, with nothing left to wait for: the
    document has the requested and the discovered collections that the
    server has sent, and with [--all] it is the whole store. *)
Theorem console_export (s : Session)
    (collections : gmap string (gmap string Doc)) :
  saveToFile (options s) = false →
  pathToCollectionMapping s
  = match colls (options s) with
    | [] => ∅
    | _ => {[ "null" := colls (options s) ]}
    end →
  colls (options s) ≠ [] →
  ∃ infos buffer,
    (receivedLastDDPMessage s collections).2
    = infos ++ [ConsoleLog (util_format
                              (stringify buffer (compress (options s))) []);
                DdpClose]
    ∧ Forall (λ eff, ∃ text, eff = ConsoleLog text) infos
    ∧ due (receivedLastDDPMessage s collections).1.2 = false
    ∧ (∀ c, buffer !! c
            = if decide (c ∈ colls (options s) ∨ all (options s) = true)
              then collections !! c else None).
Proof.
  intros Hsave Hmap Hne. unfold receivedLastDDPMessage.
  destruct (discoverAll_trace s collections) as [Hsave' Hlogs].
  assert (compress (options (discoverAll s collections).1)
          = compress (options s)
          ∧ pathToCollectionMapping (discoverAll s collections).1
            = match colls (options (discoverAll s collections).1) with
              | [] => ∅
              | _ => {[ "null" := colls (options (discoverAll s collections).1) ]}
              end
          ∧ ∀ c, c ∈ colls (options (discoverAll s collections).1)
                 ↔ c ∈ colls (options s)
                   ∨ (all (options s) = true ∧ is_Some (collections !! c)))
    as (Hcompress & Hmap' & Hmem).
  { destruct (all (options s)) eqn:Hall.
    - rewrite discoverAll_fold by done.
      destruct (foldl_discover_console collections (Object_keys collections)
                  s [] Hsave Hmap) as [-> ->].
      split; [done |]. split; [done |]. intros c.
      destruct (foldl_discover_colls collections (Object_keys collections)
                  s [] c) as (-> & _).
      rewrite Object_keys_elem. tauto.
    - unfold discoverAll. rewrite Hall. cbn. split; [done |]. split; [done |].
      intros c. split; [by left | by intros [?|[? _]]]. }
  destruct (discoverAll s collections) as [s1 t1]. cbn [fst snd] in *.
  rewrite Hsave in Hsave'.
  destruct (colls (options s1)) as [|c0 cs] eqn:Hcolls1.
  { destruct (colls (options s)) as [|c cs'] eqn:Hc; [done |].
    exfalso. eapply not_elem_of_nil. apply (Hmem c). left. apply elem_of_cons.
    by left. }
  assert (Object_keys (pathToCollectionMapping s1) = ["null"]) as Hkeys.
  { rewrite Hmap'. unfold Object_keys. by rewrite map_to_list_singleton. }
  rewrite Hkeys. cbn [length Nat.eqb asyncMap asyncMap_each].
  unfold writeData. rewrite Hmap', lookup_singleton_eq, Hsave'.
  cbn. exists t1, (gather collections (c0 :: cs)).
  rewrite Hcompress. split; [done |].
  split; [done |]. split; [done |].
  intros c. rewrite gather_lookup.
  destruct (decide (c ∈ c0 :: cs)) as [Hin|Hnot].
  - apply Hmem in Hin. rewrite decide_True; [done |]. tauto.
  - destruct (decide (c ∈ colls (options s) ∨ all (options s) = true))
      as [[Hc|Hall]|]; [| | done].
    + exfalso. apply Hnot, Hmem. by left.
    + destruct (collections !! c) as [r|] eqn:Hr; [| done].
      exfalso. apply Hnot, Hmem. right. split; [done | by eexists].
Qed.

(** ** Export of nothing *)

(** When no collection is mapped and nothing is discovered, the export
    writes nothing and closes the connection at once. *)
Theorem empty_export (s : Session) (collections : gmap string (gmap string Doc)) :
  pathToCollectionMapping s = ∅ →
  all (options s) = false ∨ collections = ∅ →
  receivedLastDDPMessage s collections
  = (s, {| results := []; outstanding := 0; due := false |},
     info (options s) "No collections received" [] ++ [DdpClose]).
Proof.
  intros Hmap Hnone. unfold receivedLastDDPMessage.
  assert (discoverAll s collections = (s, [])) as ->.
  { unfold discoverAll. destruct Hnone as [-> | ->]; [done |].
    unfold Object_keys. rewrite map_to_list_empty. cbn.
    by rewrite andb_false_r. }
  rewrite Hmap. unfold Object_keys. rewrite map_to_list_empty. by cbn.
Qed.

(** ** The end of the writes *)

(** Over any sequence of calls of the iterator callbacks, the final
    callback of [async.map] is called at most once. *)
Lemma asyncMap_run_once {R : Type}
    (final : option JsError → list R → list Effect) (am : AsyncMap R)
    (events : list (nat * option JsError * R)) :
  (asyncMap_run final am events).2 = []
  ∨ ∃ err rs, (asyncMap_run final am events).2 = final err rs.
Proof.
  revert am. induction events as [|[[i e] v] events IH]; intros am; [by left |].
  cbn [asyncMap_run].
  destruct (asyncMap_done final am i e v) as [am1 t1] eqn:Hdone.
  assert ((t1 = [] ∨ due am1 = false)
          ∧ (t1 = [] ∨ ∃ err rs, t1 = final err rs)) as [Hcase Ht1].
  { unfold asyncMap_done in Hdone.
    destruct e as [e|].
    - injection Hdone as <- <-. cbn. split; [by right |].
      destruct (due am); [right; eauto | by left].
    - destruct (_ =? _)%nat; injection Hdone as <- <-; cbn.
      + split; [by right |]. destruct (due am); [right; eauto | by left].
      + split; by left. }
  destruct Hcase as [-> | Hdue].
  - specialize (IH am1). by destruct (asyncMap_run final am1 events).
  - pose proof (asyncMap_run_settled final am1 events Hdue) as Hrest.
    destruct (asyncMap_run final am1 events). cbn in *. subst.
    by rewrite app_nil_r.
Qed.

(** However the writes end, in whatever order and with whatever errors,
    the script reacts to all of it with at most one call of [finish]:
    the connection is never closed twice and at most one error is
    reported. *)
Theorem finish_at_most_once (am : AsyncMap ())
    (events : list (nat * option JsError)) :
  (writesCompleted am events).2 = []
  ∨ ∃ err, (writesCompleted am events).2 = finish err.
Proof.
  rewrite writesCompleted_run.
  destruct (asyncMap_run_once (λ err (_ : list ()), finish err) am
              ((λ ev, (ev.1, ev.2, ())) <$> events)) as [->|(err & rs & ->)];
    [by left | right; by exists err].
Qed.

(** ** Export to files *)

Lemma info_quiet (o : Options) (fmt : string) (args : list string) :
  verbose o = false → info o fmt args = [].
Proof. intros Hv. unfold info. by rewrite Hv. Qed.

Lemma foldl_discover_quiet (collections : gmap string (gmap string Doc))
    (names : list string) (s : Session) (t : list Effect) :
  verbose (options s) = false →
  verbose (options (foldl (discover collections) (s, t) names).1) = false
  ∧ compress (options (foldl (discover collections) (s, t) names).1)
    = compress (options s)
  ∧ (foldl (discover collections) (s, t) names).2 = t.
Proof.
  revert s t. induction names as [|n names IH]; intros s t Hv; [done |].
  cbn [foldl]. destruct (decide (n ∈ colls (options s))) as [Hn|Hn].
  - rewrite discover_known by done. by apply IH.
  - rewrite discover_new by done. rewrite info_quiet, app_nil_r by done.
    match goal with
    | |- context [foldl _ (?s1, ?t1) names] =>
        destruct (IH s1 t1) as (-> & -> & ->)
    end; cbn; by destruct (options s).
Qed.

(** Without [--verbose], and when with [--all] no collection that the
    server has sent without a request resolves to the name of an
    inherited property, the export to files does one [fs.writeFile] for
    each path of the mapping and nothing else, in some order of the
    paths: each path gets the JSON text of the object gathered for its
    collections, and the connection stays open until a write has
    ended. *)
Theorem quiet_file_export (s : Session)
    (collections : gmap string (gmap string Doc)) :
  saveToFile (options s) = true → verbose (options s) = false →
  (all (options s) = true →
   ∀ n, is_Some (collections !! n) → n ∉ colls (options s) →
     String_of (generateFilename (options s) n 0) ∉ Object_prototype_keys) →
  Object_keys (pathToCollectionMapping (receivedLastDDPMessage s collections).1.1)
  ≠ [] →
  (receivedLastDDPMessage s collections).2
  ≡ₚ (λ p, FsWriteFile p
            (stringify
               (gather collections
                  (default []
                     (pathToCollectionMapping
                        (receivedLastDDPMessage s collections).1.1 !! p)))
               (compress (options s))))
    <$> Object_keys
          (pathToCollectionMapping (receivedLastDDPMessage s collections).1.1).
Proof.
  intros Hsave Hv _. unfold receivedLastDDPMessage.
  destruct (discoverAll_trace s collections) as [Hsave' _].
  assert (verbose (options (discoverAll s collections).1) = false
          ∧ compress (options (discoverAll s collections).1)
            = compress (options s)
          ∧ (discoverAll s collections).2 = []) as (Hv' & Hcompress & Ht).
  { unfold discoverAll. destruct (_ && _); [| done].
    by apply foldl_discover_quiet. }
  destruct (discoverAll s collections) as [s1 t1]. cbn [fst snd] in *.
  subst t1. rewrite Hsave in Hsave'.
  destruct (asyncMap _ _ _) as [am tw] eqn:Hmap. cbn [fst snd]. intros Hne.
  set (paths := Object_keys (pathToCollectionMapping s1)) in *.
  unfold asyncMap in Hmap. destruct paths as [|p0 paths'] eqn:Hpaths; [done |].
  rewrite <-Hpaths in Hmap |- *.
  rewrite (asyncMap_each_pending _ _
             (λ p, [FsWriteFile p
                      (stringify
                         (gather collections
                            (default [] (pathToCollectionMapping s1 !! p)))
                         (compress (options s)))])) in Hmap.
  - injection Hmap as <- <-. rewrite Hpaths. cbn [length Nat.eqb app].
    clear. induction (p0 :: paths') as [|p ps IH]; [done |]. cbn.
    by apply Permutation_skip.
  - intros p Hp. rewrite Hpaths in Hp. fold paths in Hpaths.
    rewrite <-Hpaths in Hp. apply Object_keys_elem in Hp as [cols Hp].
    unfold writeData, writeJSON. rewrite Hp, Hsave', Hcompress.
    by rewrite info_quiet.
Qed.

(** ** Warnings for subscriptions *)

(** Without [--verbose], the handling of the subscription results
    prints exactly one warning for each failed subscription, in the
    order of the results, and then starts the wait. *)
Theorem one_warning_per_failure (o : Options)
    (collections : gmap string (gmap string Doc)) (results : list SubResult) :
  verbose o = false →
  processSubscribtionResults o collections results
  = omap (λ r, e ← err r;
               Some (ConsoleError
                       ("Error: Could not subscribe to collection " +:+ dq
                        +:+ name r +:+ dq +:+ ":" +:+ nl +:+ message e)))
      results
    ++ [SetTimeout (timeout o)].
Proof.
  intros Hv. unfold processSubscribtionResults, waitForTimeout. f_equal.
  induction results as [|r results IH]; [done |].
  cbn [flat_map]. rewrite IH. change (omap ?f (r :: results))
    with (match f r with Some y => y :: omap f results | None => omap f results end).
  cbn beta. destruct (err r) as [e|]; cbn.
  - by rewrite subscription_warning_text.
  - by rewrite info_quiet.
Qed.

(** ** Path templating *)

(** What [formatPath] gives for the templates without a stray percent
    sign: the collection name with [.json] for a missing or empty
    template, the template itself when it has no percent sign, and the
    template with the name in the place of the marker when the marker
    is its only percent sign. *)
Theorem formatPath_regular (n : string) :
  formatPath None n = n +:+ ".json"
  ∧ formatPath (Some "") n = n +:+ ".json"
  ∧ (∀ f, f ≠ "" → indexOf f "%" = -1 → formatPath (Some f) n = f)
  ∧ (∀ pre post, indexOf pre "%" = -1 → indexOf post "%" = -1 →
       formatPath (Some (pre +:+ "%s" +:+ post)) n = pre +:+ n +:+ post).
Proof.
  split; [apply formatPath_undefined |]. split; [apply formatPath_empty |].
  split; [intros; by apply formatPath_no_percent |].
  intros. by apply formatPath_single_marker.
Qed.

(** ** After the handshake *)

Lemma subscriptionsOf_app (t1 t2 : list Effect) :
  subscriptionsOf (t1 ++ t2) = subscriptionsOf t1 ++ subscriptionsOf t2.
Proof.
  induction t1 as [|e t1 IH]; [done |]. destruct e; cbn; by rewrite ?IH.
Qed.

Lemma subscriptionsOf_logs (t : list Effect) :
  Forall (λ eff, ∃ text, eff = ConsoleLog text) t → subscriptionsOf t = [].
Proof. induction 1 as [|e t [text ->] _ IH]; [done | by cbn]. Qed.

(** The subscriptions of a list of collections: one call of
    [ddp.subscribe] for each, in the order of the list, and no timer. *)
Lemma subscribeToCollection_each (o : Options) (names : list string) :
  subscriptionsOf (flat_map (subscribeToCollection o) names) = names
  ∧ timersSet (flat_map (subscribeToCollection o) names) = 0%nat.
Proof.
  induction names as [|n names [IHs IHt]]; [done |]. cbn [flat_map].
  unfold subscribeToCollection at 1 3.
  rewrite !subscriptionsOf_app, !timersSet_app, IHs, IHt.
  rewrite subscriptionsOf_logs, timersSet_logs by apply info_logs. done.
Qed.

(** After a successful handshake the script either subscribes to every
    requested collection, in the order of the command line, and sets no
    timer before the answers have come, or, with no requested
    collection, subscribes to nothing and sets the timer at once, with
    [options.timeout] as its delay.  Apart from that it only prints. *)
Theorem connect_success (o : Options)
    (collections : gmap string (gmap string Doc)) :
  let t := (connectCallback o collections None).2 in
  subscriptionsOf t = colls o
  ∧ timersSet t = (if decide (colls o = []) then 1 else 0)%nat
  ∧ (colls o = [] → ∃ reports, t = reports ++ [SetTimeout (timeout o)])
  ∧ (colls o ≠ [] → ∀ d, SetTimeout d ∉ t)
  ∧ (∀ eff, eff ∈ t →
       (∃ text, eff = ConsoleLog text) ∨ (∃ n, eff = DdpSubscribe n)
       ∨ eff = SetTimeout (timeout o))
  ∧ outstanding (connectCallback o collections None).1 = length (colls o)
  ∧ due (connectCallback o collections None).1
    = negb (length (colls o) =? 0)%nat.
Proof.
  cbn zeta.
  pose proof (info_logs o "DDP connection was successful" []) as Hlogs.
  destruct (colls o) as [|c cs] eqn:Hcolls.
  - unfold connectCallback, waitForTimeout. rewrite Hcolls. cbn [length Nat.eqb snd fst].
    rewrite subscriptionsOf_app, timersSet_app.
    rewrite subscriptionsOf_logs, timersSet_logs by done.
    repeat split; try done.
    + by eexists.
    + intros eff [Hin|Hin%list_elem_of_singleton]%elem_of_app; [| by auto].
      left. rewrite Forall_forall in Hlogs. by apply Hlogs.
  - rewrite connectCallback_subscribes by (by rewrite Hcolls).
    rewrite <-Hcolls. cbn [fst snd outstanding due].
    destruct (subscribeToCollection_each o (colls o)) as [Hsubs Htimers].
    assert (timersSet (info o "DDP connection was successful" []
                       ++ flat_map (subscribeToCollection o) (colls o)) = 0%nat)
      as Hnone by (by rewrite timersSet_app, timersSet_logs, Htimers).
    rewrite subscriptionsOf_app, subscriptionsOf_logs, Hsubs, Hnone by done.
    assert (colls o ≠ []) as Hne by (by rewrite Hcolls).
    rewrite decide_False by done.
    split; [done |]. split; [done |]. split; [done |].
    split; [| split; [| split; [done | by rewrite Hcolls]]].
    + intros _. by apply timersSet_none.
    + intros eff [Hin|Hin]%elem_of_app.
      * left. rewrite Forall_forall in Hlogs. by apply Hlogs.
      * apply list_elem_of_In, in_flat_map in Hin as (n & _ & Hin).
        unfold subscribeToCollection in Hin.
        apply in_app_or in Hin as [Hin|[<-|[]]]; [left | right; left; by eexists].
        pose proof (info_logs o "Subscribing to collection: %s" [n]) as Hl.
        rewrite Forall_forall in Hl. by apply Hl, list_elem_of_In.
Qed.

End Coverage.

(** * The further properties on concrete runs *)

Lemma unknown_protocol_fatal_witness :
  processCliOptions (H := parsedAs httpUrl)
    (urlOptions "http://example.org" "localhost" 3000 ["cats"])
  = Exits [ConsoleError ("Error: Unknown protocol " +:+ dq +:+ "http:" +:+ dq);
           ProcessExit 1].
Proof.
  exact (unknown_protocol_fatal (H := parsedAs httpUrl)
           (urlOptions "http://example.org" "localhost" 3000 ["cats"])
           "http://example.org" eq_refl ltac:(done) ltac:(done) ltac:(done)).
Defined.

Lemma url_overrides_connection_witness :
  ssl (processed (H := parsedAs wssUrl)
         (urlOptions "wss://example.org" "localhost" 3000 ["cats"])) = true
  ∧ host (processed (H := parsedAs wssUrl)
            (urlOptions "wss://example.org" "localhost" 3000 ["cats"]))
    = Some "example.org"
  ∧ port (processed (H := parsedAs wssUrl)
            (urlOptions "wss://example.org" "localhost" 3000 ["cats"]))
    = PortNumber 443.
Proof.
  exact (url_overrides_connection (H := parsedAs wssUrl)
           (urlOptions "wss://example.org" "localhost" 3000 ["cats"])
           (processed (H := parsedAs wssUrl)
              (urlOptions "wss://example.org" "localhost" 3000 ["cats"]))
           [] "wss://example.org" eq_refl ltac:(done) eq_refl).
Defined.

Lemma connection_defaults_witness :
  ssl (processed (H := testRuntime) verboseOptions) = false
  ∧ host (processed (H := testRuntime) verboseOptions) = Some "localhost"
  ∧ port (processed (H := testRuntime) verboseOptions) = PortNumber 80
  ∧ ddpv (processed (H := testRuntime) verboseOptions) = Some "1".
Proof.
  exact (connection_defaults (H := testRuntime) verboseOptions
           (processed (H := testRuntime) verboseOptions) [] eq_refl eq_refl).
Defined.

Lemma timeout_default_witness :
  timeout (processed (H := testRuntime)
             (set_timeout (Some 0)
                (set_colls ["cats"] (cmdline None ["cats"] true false))))
  = Some 800.
Proof.
  exact (timeout_default (H := testRuntime)
           (set_timeout (Some 0)
              (set_colls ["cats"] (cmdline None ["cats"] true false)))
           (processed (H := testRuntime)
              (set_timeout (Some 0)
                 (set_colls ["cats"] (cmdline None ["cats"] true false))))
           [] eq_refl).
Defined.

Lemma fatal_only_when_ambiguous_witness :
  ∃ o', processCliOptions (H := testRuntime)
          (set_colls ["cats"; "birds"]
             (cmdline (Some ["cats.json"; "birds.json"]) ["cats"; "birds"]
                false false))
        = Returns [] o'.
Proof.
  apply (proj2 (fatal_only_when_ambiguous (H := testRuntime)
                  (set_colls ["cats"; "birds"]
                     (cmdline (Some ["cats.json"; "birds.json"])
                        ["cats"; "birds"] false false)) eq_refl)).
  intros [_ [Hmarker | Hcount]]; [by apply Hmarker | by apply Hcount].
Defined.

Lemma console_merges_all_witness :
  saveToFile (processed (H := testRuntime)
                (set_colls ["cats"; "dogs"]
                   (cmdline None ["cats"; "dogs"] false false))) = false
  ∧ buildMapping (H := testRuntime)
      (processed (H := testRuntime)
         (set_colls ["cats"; "dogs"]
            (cmdline None ["cats"; "dogs"] false false)))
    = {[ "null" := ["cats"; "dogs"] ]}.
Proof.
  exact (console_merges_all (H := testRuntime)
           (set_colls ["cats"; "dogs"]
              (cmdline None ["cats"; "dogs"] false false))
           (processed (H := testRuntime)
              (set_colls ["cats"; "dogs"]
                 (cmdline None ["cats"; "dogs"] false false)))
           [] eq_refl eq_refl).
Defined.

Lemma single_file_merges_all_witness :
  saveToFile (processed (H := testRuntime)
                (set_colls ["cats"; "dogs"]
                   (cmdline (Some ["out.json"]) ["cats"; "dogs"] false false)))
  = true
  ∧ buildMapping (H := testRuntime)
      (processed (H := testRuntime)
         (set_colls ["cats"; "dogs"]
            (cmdline (Some ["out.json"]) ["cats"; "dogs"] false false)))
    = {[ "out.json" := ["cats"; "dogs"] ]}.
Proof.
  exact (single_file_merges_all (H := testRuntime)
           (set_colls ["cats"; "dogs"]
              (cmdline (Some ["out.json"]) ["cats"; "dogs"] false false))
           (processed (H := testRuntime)
              (set_colls ["cats"; "dogs"]
                 (cmdline (Some ["out.json"]) ["cats"; "dogs"] false false)))
           [] "out.json" eq_refl ltac:(done) eq_refl ltac:(ordinary_key)
           eq_refl).
Defined.

Lemma template_fan_out_witness :
  buildMapping (H := testRuntime) (processed (H := testRuntime) fanOutOptions)
    !! "col_lizards.json" = Some ["lizards"].
Proof.
  apply (proj1 (template_fan_out (H := testRuntime) fanOutOptions
                  (processed (H := testRuntime) fanOutOptions) []
                  "col_" ".json" eq_refl eq_refl eq_refl
                  ltac:(compute_done)
                  ltac:(refine (proj1 (Forall_forall _ _) _);
                        repeat constructor; ordinary_key)
                  eq_refl) "lizards").
  compute_done.
Defined.

Lemma main_session_witness :
  colls (options (started exampleStart)) = ["cats"]
  ∧ last (startedTrace exampleStart) = Some DdpConnect.
Proof.
  pose proof (main_session (H := testRuntime)
                (cmdline None ["cats"] false false) 5
                (startedTrace exampleStart) (started exampleStart) eq_refl)
    as (Hcolls & _ & _ & _ & _ & _ & _ & Hlast & _).
  split; [exact Hcolls | exact Hlast].
Defined.

Lemma main_entries_witness :
  entriesOf "cats" (pathToCollectionMapping (started exampleStart))
  = occurrences "cats" (colls (options (started exampleStart))).
Proof.
  exact (main_entries (H := testRuntime) (cmdline None ["cats"] false false) 5
           (startedTrace exampleStart) (started exampleStart) "cats" eq_refl).
Defined.

Lemma capture_all_discovers_witness :
  entriesOf "dogs"
    (pathToCollectionMapping
       (discoverAll (H := testRuntime) captureSession exampleCollections).1)
  = 1%nat.
Proof.
  apply (proj2 (proj2 (capture_all_discovers (H := testRuntime) captureSession
                         exampleCollections "dogs" eq_refl eq_refl
                         ltac:(intros n _ _; ordinary_key)))).
  - compute_done.
  - by eexists.
Defined.

Lemma console_export_witness :
  ∃ infos buffer,
    (receivedLastDDPMessage (H := testRuntime) captureSession
       exampleCollections).2
    = infos ++ [ConsoleLog (util_format (H := testRuntime)
                              (stringify (H := testRuntime) buffer
                                 (compress (options captureSession))) []);
                DdpClose]
    ∧ Forall (λ eff, ∃ text, eff = ConsoleLog text) infos
    ∧ due (receivedLastDDPMessage (H := testRuntime) captureSession
             exampleCollections).1.2 = false
    ∧ (∀ c, buffer !! c
            = if decide (c ∈ colls (options captureSession)
                         ∨ all (options captureSession) = true)
              then exampleCollections !! c else None).
Proof.
  exact (console_export (H := testRuntime) captureSession exampleCollections
           eq_refl eq_refl ltac:(done)).
Defined.

Lemma empty_export_witness :
  receivedLastDDPMessage (H := testRuntime) emptySession ∅
  = (emptySession, {| results := []; outstanding := 0; due := false |},
     [DdpClose]).
Proof.
  exact (empty_export (H := testRuntime) emptySession ∅ eq_refl
           (or_intror eq_refl)).
Defined.

Lemma quiet_file_export_witness :
  length (receivedLastDDPMessage (H := testRuntime) exampleSession
            exampleCollections).2 = 2%nat.
Proof.
  rewrite (Permutation_length
             (quiet_file_export (H := testRuntime) exampleSession
                exampleCollections eq_refl eq_refl ltac:(discriminate)
                ltac:(compute_done))).
  reflexivity.
Defined.

Lemma one_warning_per_failure_witness :
  processSubscribtionResults (H := testRuntime) noOptions exampleCollections
    exampleResults
  = [ConsoleError ("Error: Could not subscribe to collection " +:+ dq
                   +:+ "cats" +:+ dq +:+ ":" +:+ nl +:+ "403");
     SetTimeout None].
Proof.
  exact (one_warning_per_failure (H := testRuntime) noOptions
           exampleCollections exampleResults eq_refl).
Defined.

Lemma formatPath_regular_witness :
  formatPath (H := testRuntime) (Some "col_%s.json") "cats" = "col_cats.json".
Proof.
  exact (proj2 (proj2 (proj2 (formatPath_regular (H := testRuntime) "cats")))
           "col_" ".json" eq_refl eq_refl).
Defined.

Lemma connect_success_witness :
  subscriptionsOf
    (connectCallback (H := testRuntime) fanOutOptions exampleCollections None).2
  = ["cats"; "dogs"; "lizards"]
  ∧ timersSet
      (connectCallback (H := testRuntime) fanOutOptions exampleCollections
         None).2
    = 0%nat.
Proof.
  pose proof (connect_success (H := testRuntime) fanOutOptions
                exampleCollections) as (Hsubs & Htimers & _).
  split; [exact Hsubs | exact Htimers].
Defined.

Lemma subscriptions_reach_wait_witness :
  ∃ results,
    (subscriptionsCompleted (H := testRuntime)
       (set_colls ["cats"; "dogs"] (cmdline None ["cats"; "dogs"] false false))
       exampleCollections
       (connectCallback (H := testRuntime)
          (set_colls ["cats"; "dogs"]
             (cmdline None ["cats"; "dogs"] false false))
          exampleCollections None).1
       [(1%nat, "dogs", None); (0%nat, "cats", Some {| message := "403" |})]).2
    = processSubscribtionResults (H := testRuntime)
        (set_colls ["cats"; "dogs"] (cmdline None ["cats"; "dogs"] false false))
        exampleCollections results.
Proof.
  exact (proj1 (subscriptions_reach_wait (H := testRuntime)
                  (set_colls ["cats"; "dogs"]
                     (cmdline None ["cats"; "dogs"] false false))
                  exampleCollections
                  [(1%nat, "dogs", None);
                   (0%nat, "cats", Some {| message := "403" |})]
                  ltac:(done) eq_refl)).
Defined.
